(** * RowBlock: the in-memory row container of the OLAP storage engine

    Shallow embedding of [be/src/olap/row_block.h].  The inline members of
    the header (get_row, set_row, field_ptr, the pos/limit accessors and the
    binary-search comparator) are translated from the C++ text.  The
    out-of-line members (init, finalize, find_row, clear, _compute_layout)
    live in row_block.cpp; they are modelled from the specification and each
    such definition says so. *)

From Stdlib Require Import ZArith List Lia Bool Strings.Byte.
From stdpp Require Import base option list strings gmap.

Local Open Scope Z_scope.

(** ** Machine integers

    [uint32_t] and [size_t] (64 bit) values are integers of [Z];
    every operation that can leave the range writes its wrap-around out. *)

Definition UINT32_MODULUS : Z := 2 ^ 32.
Definition SIZE_MODULUS : Z := 2 ^ 64.

Definition wrap_size_t (z : Z) : Z := z mod SIZE_MODULUS.

Definition is_uint32 (z : Z) : Prop := 0 <= z < UINT32_MODULUS.
Definition is_size_t (z : Z) : Prop := 0 <= z < SIZE_MODULUS.

(** The value a [size_t] has when it is read as a signed 64-bit integer. *)
Definition as_signed64 (z : Z) : Z :=
  if z <? 2 ^ 63 then z else z - SIZE_MODULUS.

(** ** External collaborators *)

(** [OLAPStatus] (olap_define.h): only success against failure matters here;
    the failure codes are not told apart. *)
Inductive OLAPStatus : Type :=
  | OLAP_SUCCESS
  | OLAP_FAILURE.

(** Modelled from the spec: the schema provider (TabletSchema is declared in
    a header that is not part of the sources).  An ordered list of columns,
    each with a value byte width and a nullability flag. *)
Record TabletColumn : Type := mkTabletColumn {
  value_width : Z;
  is_nullable : bool
}.

Definition TabletSchema : Type := list TabletColumn.

(** Modelled from the spec: the row cursor (row_cursor.h is not part of the
    sources).  A view that can be attached to a byte address; every read
    through it starts at that address. *)
Record RowCursor : Type := mkRowCursor {
  _fixed_buf : Z
}.

Definition attach (cursor : RowCursor) (buf : Z) : RowCursor :=
  {| _fixed_buf := buf |}.

(** ** RowBlockInfo *)

Module RowBlockInfo.
Record t : Type := mk {
  checksum : Z;
  row_num : Z;
  null_supported : bool;
  column_ids : list Z
}.

Definition with_row_num (i : t) (n : Z) : t :=
  {| checksum := checksum i; row_num := n;
     null_supported := null_supported i; column_ids := column_ids i |}.
End RowBlockInfo.

(** ** RowBlock

    [_mem_buf] is the address of the buffer and [_mem_data] the bytes stored
    at that address, in order.  [_mem_pool] lists the payloads handed out by
    the arena.  [_finalized] is not a member of the C++ class. *)
Record RowBlock : Type := mkRowBlock {
  _capacity : Z;
  _info : RowBlockInfo.t;
  _schema : TabletSchema;
  _null_supported : bool;
  _mem_buf : Z;
  _mem_data : list byte;
  _mem_buf_bytes : Z;
  _mem_row_bytes : Z;
  _field_offset_in_memory : list Z;
  _pos : Z;
  _limit : Z;
  _block_status : Z;
  _mem_pool : list (list byte);
  (** Modelled from the spec: the phase of the two-phase fill/finalize
      lifecycle, maintained by the members of row_block.cpp. *)
  _finalized : bool
}.

Definition with_mem_data (b : RowBlock) (d : list byte) : RowBlock :=
  {| _capacity := _capacity b; _info := _info b; _schema := _schema b;
     _null_supported := _null_supported b; _mem_buf := _mem_buf b;
     _mem_data := d; _mem_buf_bytes := _mem_buf_bytes b;
     _mem_row_bytes := _mem_row_bytes b;
     _field_offset_in_memory := _field_offset_in_memory b;
     _pos := _pos b; _limit := _limit b; _block_status := _block_status b;
     _mem_pool := _mem_pool b; _finalized := _finalized b |}.

Definition with_pos (b : RowBlock) (p : Z) : RowBlock :=
  {| _capacity := _capacity b; _info := _info b; _schema := _schema b;
     _null_supported := _null_supported b; _mem_buf := _mem_buf b;
     _mem_data := _mem_data b; _mem_buf_bytes := _mem_buf_bytes b;
     _mem_row_bytes := _mem_row_bytes b;
     _field_offset_in_memory := _field_offset_in_memory b;
     _pos := p; _limit := _limit b; _block_status := _block_status b;
     _mem_pool := _mem_pool b; _finalized := _finalized b |}.

Definition with_limit (b : RowBlock) (l : Z) : RowBlock :=
  {| _capacity := _capacity b; _info := _info b; _schema := _schema b;
     _null_supported := _null_supported b; _mem_buf := _mem_buf b;
     _mem_data := _mem_data b; _mem_buf_bytes := _mem_buf_bytes b;
     _mem_row_bytes := _mem_row_bytes b;
     _field_offset_in_memory := _field_offset_in_memory b;
     _pos := _pos b; _limit := l; _block_status := _block_status b;
     _mem_pool := _mem_pool b; _finalized := _finalized b |}.

Definition with_block_status (b : RowBlock) (s : Z) : RowBlock :=
  {| _capacity := _capacity b; _info := _info b; _schema := _schema b;
     _null_supported := _null_supported b; _mem_buf := _mem_buf b;
     _mem_data := _mem_data b; _mem_buf_bytes := _mem_buf_bytes b;
     _mem_row_bytes := _mem_row_bytes b;
     _field_offset_in_memory := _field_offset_in_memory b;
     _pos := _pos b; _limit := _limit b; _block_status := s;
     _mem_pool := _mem_pool b; _finalized := _finalized b |}.

(** ** Memory access

    Reading or writing [n] bytes at address [p] is defined when the range
    [p, p + n) lies inside the buffer; anything else is undefined behaviour
    in C++, which the model renders as [None]. *)

Definition in_buffer (b : RowBlock) (p n : Z) : bool :=
  (0 <=? n) && (_mem_buf b <=? p)
  && (p + n <=? _mem_buf b + Z.of_nat (length (_mem_data b))).

Definition slice (d : list byte) (off n : Z) : list byte :=
  take (Z.to_nat n) (drop (Z.to_nat off) d).

Definition load (b : RowBlock) (p n : Z) : option (list byte) :=
  if in_buffer b p n then Some (slice (_mem_data b) (p - _mem_buf b) n)
  else None.

Definition splice (d : list byte) (off : Z) (src : list byte) : list byte :=
  take (Z.to_nat off) d ++ src ++ drop (Z.to_nat off + length src)%nat d.

(** [memcpy(dst, src, n)] with [dst] pointing into the buffer of [b] and
    [src] the bytes readable at the source pointer. *)
Definition memcpy (b : RowBlock) (dst : Z) (src : list byte) (n : Z)
  : option RowBlock :=
  if in_buffer b dst n && (n <=? Z.of_nat (length src)) then
    Some (with_mem_data b
            (splice (_mem_data b) (dst - _mem_buf b) (take (Z.to_nat n) src)))
  else None.

(** ** Inline members of the class *)

(** [_mem_buf + row_index * _mem_row_bytes]: the product is computed in
    [size_t]. *)
Definition row_address (b : RowBlock) (row_index : Z) : Z :=
  _mem_buf b + wrap_size_t (row_index * _mem_row_bytes b).

Definition get_row (b : RowBlock) (row_index : Z) (cursor : RowCursor)
  : RowCursor :=
  attach cursor (row_address b row_index).

(** [row_ptr] is what [row.row_ptr()] points at. *)
Definition set_row (b : RowBlock) (row_index : Z) (row_ptr : list byte)
  : option RowBlock :=
  memcpy b (row_address b row_index) row_ptr (_mem_row_bytes b).

Definition row_num (b : RowBlock) : Z := RowBlockInfo.row_num (_info b).
Definition row_block_info (b : RowBlock) : RowBlockInfo.t := _info b.
Definition tablet_schema (b : RowBlock) : TabletSchema := _schema b.
Definition capacity (b : RowBlock) : Z := _capacity b.

(** [_mem_buf + _mem_row_bytes * row + _field_offset_in_memory[col]];
    indexing the vector past its end is undefined. *)
Definition field_ptr (b : RowBlock) (row col : Z) : option Z :=
  off ← _field_offset_in_memory b !! Z.to_nat col;
  Some (_mem_buf b + wrap_size_t (_mem_row_bytes b * row) + off).

Definition mem_pool (b : RowBlock) : list (list byte) := _mem_pool b.

Definition pos (b : RowBlock) : Z := _pos b.
Definition set_pos (b : RowBlock) (p : Z) : RowBlock := with_pos b p.
Definition pos_inc (b : RowBlock) : RowBlock :=
  with_pos b (wrap_size_t (_pos b + 1)).
Definition limit (b : RowBlock) : Z := _limit b.
Definition set_limit (b : RowBlock) (l : Z) : RowBlock := with_limit b l.
Definition remaining (b : RowBlock) : Z := wrap_size_t (_limit b - _pos b).
Definition has_remaining (b : RowBlock) : bool := _pos b <? _limit b.
Definition block_status (b : RowBlock) : Z := _block_status b.
Definition set_block_status (b : RowBlock) (s : Z) : RowBlock :=
  with_block_status b s.
Definition has_nullbyte (b : RowBlock) : bool := _null_supported b.

(** ** The binary-search comparator *)

(** [ComparatorEnum] (olap_common.h). *)
Inductive ComparatorEnum : Type :=
  | COMPARATOR_LESS
  | COMPARATOR_LARGER.

(** The bytes of the row a cursor is attached to, as the cursor reads them
    out of the block. *)
Definition cursor_row (b : RowBlock) (cursor : RowCursor)
  : option (list byte) :=
  load b (_fixed_buf cursor) (_mem_row_bytes b).

(** The bytes of the row in slot [i], taken from the buffer directly. *)
Definition row_bytes (b : RowBlock) (i : Z) : list byte :=
  slice (_mem_data b) (i * _mem_row_bytes b) (_mem_row_bytes b).

(** The logical content of the block: rows [0, row_num) in order. *)
Definition rows (b : RowBlock) : list (list byte) :=
  row_bytes b <$> seqZ 0 (row_num b).

Fixpoint count_rows (p : list byte -> bool) (l : list (list byte)) : Z :=
  match l with
  | [] => 0
  | r :: rest => (if p r then 1 else 0) + count_rows p rest
  end.

(** Library-style search over the index range [first, first + len): the
    loops of [std::lower_bound] and [std::upper_bound].  [comp] may be
    undefined at an index; one unit of fuel is spent per test of the loop
    condition, and running out of fuel yields no result. *)
Fixpoint lower_bound_loop (comp : Z -> option bool) (fuel : nat)
  (first len : Z) : option Z :=
  match fuel with
  | O => None
  | S fuel' =>
      if 0 <? len then
        let half := Z.shiftr len 1 in
        let middle := first + half in
        c ← comp middle;
        if c : bool then lower_bound_loop comp fuel' (middle + 1) (len - half - 1)
        else lower_bound_loop comp fuel' first half
      else Some first
  end.

Fixpoint upper_bound_loop (comp : Z -> option bool) (fuel : nat)
  (first len : Z) : option Z :=
  match fuel with
  | O => None
  | S fuel' =>
      if 0 <? len then
        let half := Z.shiftr len 1 in
        let middle := first + half in
        c ← comp middle;
        if c : bool then upper_bound_loop comp fuel' first half
        else upper_bound_loop comp fuel' (middle + 1) (len - half - 1)
      else Some first
  end.

Definition lower_bound (comp : Z -> option bool) (first last : Z)
  : option Z :=
  lower_bound_loop comp (S (Z.to_nat (last - first))) first (last - first).

Definition upper_bound (comp : Z -> option bool) (first last : Z)
  : option Z :=
  upper_bound_loop comp (S (Z.to_nat (last - first))) first (last - first).

Section Search.

(** [RowCursor::cmp]: the three-way comparison of the row a cursor reads
    against a key, on the bytes of both. *)
Variable cmp : list byte -> list byte -> Z.

(** [RowBlockComparator::_compare]. *)
Definition _compare (b : RowBlock) (_helper_cursor : RowCursor)
  (index : Z) (key : list byte) (comparator_enum : ComparatorEnum)
  : option bool :=
  let _helper_cursor := get_row b index _helper_cursor in
  row ← cursor_row b _helper_cursor;
  match comparator_enum with
  | COMPARATOR_LESS => Some (cmp row key <? 0)
  | COMPARATOR_LARGER => Some (cmp row key >? 0)
  end.

(** The two call operators of [RowBlockComparator]. *)
Definition comparator_less (b : RowBlock) (_helper_cursor : RowCursor)
  (index : Z) (key : list byte) : option bool :=
  _compare b _helper_cursor index key COMPARATOR_LESS.

Definition comparator_larger (b : RowBlock) (_helper_cursor : RowCursor)
  (key : list byte) (index : Z) : option bool :=
  _compare b _helper_cursor index key COMPARATOR_LARGER.

(** Modelled from the spec: [RowBlock::find_row], whose body is in
    row_block.cpp.  The result pairs the returned status with the value of
    [*row_index] after the call; [None] is undefined behaviour.  A block
    that is not finalized is refused with a failure status and the output
    index is left alone; otherwise the index range [0, row_num) is searched
    with the comparator above, for the lower bound when [find_last] is
    false and for the upper bound when it is true. *)
Definition find_row (b : RowBlock) (key : list byte) (find_last : bool)
  (row_index : Z) : option (OLAPStatus * Z) :=
  if _finalized b then
    let helper_cursor := {| _fixed_buf := 0 |} in
    it_result ←
      (if find_last
       then upper_bound (comparator_larger b helper_cursor key) 0 (row_num b)
       else lower_bound (fun i => comparator_less b helper_cursor i key)
              0 (row_num b));
    Some (OLAP_SUCCESS, it_result)
  else Some (OLAP_FAILURE, row_index).

(** Rows in ascending order: every row compares at most equal to its
    successor. *)
Fixpoint sorted_rows (l : list (list byte)) : bool :=
  match l with
  | [] => true
  | r :: rest =>
      match rest with
      | [] => true
      | r' :: _ => (cmp r r' <=? 0) && sorted_rows rest
      end
  end.

Definition count_less (b : RowBlock) (key : list byte) : Z :=
  count_rows (fun r => cmp r key <? 0) (rows b).

Definition count_less_equal (b : RowBlock) (key : list byte) : Z :=
  count_rows (fun r => cmp r key <=? 0) (rows b).

(** [i] is the smallest index whose row is not less than [key]. *)
Definition is_lower_bound (b : RowBlock) (key : list byte) (i : Z) : Prop :=
  0 <= i <= row_num b
  /\ (forall j, 0 <= j < i -> cmp (row_bytes b j) key < 0)
  /\ (forall j, i <= j < row_num b -> 0 <= cmp (row_bytes b j) key).

(** [i] is the smallest index whose row is strictly greater than [key]. *)
Definition is_upper_bound (b : RowBlock) (key : list byte) (i : Z) : Prop :=
  0 <= i <= row_num b
  /\ (forall j, 0 <= j < i -> cmp (row_bytes b j) key <= 0)
  /\ (forall j, i <= j < row_num b -> 0 < cmp (row_bytes b j) key).

End Search.

(** A three-way comparison that orders its arguments totally. *)
Class ThreeWay (cmp : list byte -> list byte -> Z) : Prop := {
  cmp_swap : forall a b, cmp a b < 0 <-> 0 < cmp b a;
  cmp_trans : forall a b c, cmp a b <= 0 -> cmp b c <= 0 -> cmp a c <= 0
}.

(** ** Field layout *)

(** Modelled from the spec: one entry of the field layout table, in
    schema-declared order (the table of row_block.cpp keeps the offset
    only). *)
Record FieldLayoutEntry : Type := mkFieldLayoutEntry {
  column_id : Z;
  offset : Z;
  has_null_byte : bool;
  width : Z
}.

(** Bytes one column takes in a row: the null indicator, when the block
    supports nulls, and the value. *)
Definition field_size (null_supported : bool) (c : TabletColumn) : Z :=
  (if null_supported then 1 else 0) + value_width c.

(** Modelled from the spec: [RowBlock::_compute_layout], whose body is in
    row_block.cpp.  Columns are visited in declared order with a running
    offset that starts at 0; a column records the running offset as its field
    offset, then the null indicator byte (if enabled) and the value width are
    added to it.  A column of zero or negative width makes the computation
    fail.  The final running offset is the row stride. *)
Fixpoint layout_from (cols : list TabletColumn) (null_supported : bool)
  (col_id running : Z) : option (Z * list FieldLayoutEntry) :=
  match cols with
  | [] => Some (running, [])
  | c :: rest =>
      if value_width c <=? 0 then None
      else
        res ← layout_from rest null_supported (col_id + 1)
                (running + field_size null_supported c);
        Some (fst res,
              {| column_id := col_id; offset := running;
                 has_null_byte := null_supported;
                 width := value_width c |} :: snd res)
  end.

Definition compute_layout (schema : TabletSchema) (null_supported : bool)
  : option (Z * list FieldLayoutEntry) :=
  layout_from schema null_supported 0 0.

(** The layout a block carries is the one computed for its schema. *)
Definition layout_computed (b : RowBlock) (entries : list FieldLayoutEntry)
  : Prop :=
  compute_layout (_schema b) (_null_supported b)
    = Some (_mem_row_bytes b, entries)
  /\ _field_offset_in_memory b = offset <$> entries.

Definition entry_size (e : FieldLayoutEntry) : Z :=
  (if has_null_byte e then 1 else 0) + width e.

(** Modelled from the spec: the field read of the row cursor.  The bytes of
    one field, null indicator first when there is one, read at the address
    the cursor is attached to plus the field's offset. *)
Definition read_field (b : RowBlock) (cursor : RowCursor)
  (e : FieldLayoutEntry) : option (list byte) :=
  load b (_fixed_buf cursor + offset e) (entry_size e).

(** ** Lifecycle *)

(** Modelled from the spec: [RowBlock::finalize], whose body is in
    row_block.cpp.  It fixes the logical row count and resets [pos] to 0 and
    [limit] to the row count.  A count above the capacity would break
    [row_count <= capacity]; it is refused and the block is left as it
    was. *)
Definition finalize (b : RowBlock) (row_num : Z) : OLAPStatus * RowBlock :=
  if row_num <=? _capacity b then
    (OLAP_SUCCESS,
     {| _capacity := _capacity b;
        _info := RowBlockInfo.with_row_num (_info b) row_num;
        _schema := _schema b;
        _null_supported := _null_supported b; _mem_buf := _mem_buf b;
        _mem_data := _mem_data b; _mem_buf_bytes := _mem_buf_bytes b;
        _mem_row_bytes := _mem_row_bytes b;
        _field_offset_in_memory := _field_offset_in_memory b;
        _pos := 0; _limit := row_num; _block_status := _block_status b;
        _mem_pool := _mem_pool b; _finalized := true |})
  else (OLAP_FAILURE, b).

Section Clear.

(** [DEL_PARTIAL_SATISFIED] (olap_common.h), the status a block is
    constructed with. *)
Variable DEL_PARTIAL_SATISFIED : Z.

(** Modelled from the spec: [RowBlock::clear], whose body is in
    row_block.cpp.  The block goes back to its empty-but-allocated state:
    no valid row (row count 0), [pos] and [limit] 0, the status the block
    was constructed with; the arena is emptied; the buffer, its size and the
    layout stay. *)
Definition clear (b : RowBlock) : RowBlock :=
  {| _capacity := _capacity b;
     _info := RowBlockInfo.with_row_num (_info b) 0;
     _schema := _schema b;
     _null_supported := _null_supported b; _mem_buf := _mem_buf b;
     _mem_data := _mem_data b; _mem_buf_bytes := _mem_buf_bytes b;
     _mem_row_bytes := _mem_row_bytes b;
     _field_offset_in_memory := _field_offset_in_memory b;
     _pos := 0; _limit := 0; _block_status := DEL_PARTIAL_SATISFIED;
     _mem_pool := []; _finalized := false |}.

(** The state a block is in between [clear] and the next fill. *)
Definition empty_but_allocated (b : RowBlock) : Prop :=
  row_num b = 0 /\ pos b = 0 /\ limit b = 0
  /\ block_status b = DEL_PARTIAL_SATISFIED /\ _finalized b = false.

End Clear.

(** What [clear] must keep for the block to be reusable without a new
    allocation. *)
Definition same_allocation (b b' : RowBlock) : Prop :=
  _mem_buf b' = _mem_buf b
  /\ length (_mem_data b') = length (_mem_data b)
  /\ _mem_buf_bytes b' = _mem_buf_bytes b
  /\ _mem_row_bytes b' = _mem_row_bytes b
  /\ _capacity b' = _capacity b
  /\ _field_offset_in_memory b' = _field_offset_in_memory b.

(** A fill: [set_row] calls in any index order. *)
Fixpoint refill (b : RowBlock) (writes : list (Z * list byte))
  : option RowBlock :=
  match writes with
  | [] => Some b
  | (i, src) :: rest => b' ← set_row b i src; refill b' rest
  end.

(** ** Calls a consumer makes between [finalize] and [clear] *)

Inductive ConsumerCall : Type :=
  | call_set_row (row_index : Z) (row_ptr : list byte)
  | call_set_pos (p : Z)
  | call_pos_inc
  | call_set_limit (l : Z)
  | call_set_block_status (s : Z).

Definition run_call (c : ConsumerCall) (b : RowBlock) : option RowBlock :=
  match c with
  | call_set_row i src => set_row b i src
  | call_set_pos p => Some (set_pos b p)
  | call_pos_inc => Some (pos_inc b)
  | call_set_limit l => Some (set_limit b l)
  | call_set_block_status s => Some (set_block_status b s)
  end.

Fixpoint run_calls (cs : list ConsumerCall) (b : RowBlock)
  : option RowBlock :=
  match cs with
  | [] => Some b
  | c :: rest => b' ← run_call c b; run_calls rest b'
  end.

(** ** The sequential cursor as a transition system *)

Inductive CursorCall : Type :=
  | cursor_pos_inc
  | cursor_set_limit (l : Z).

Definition cursor_step (c : CursorCall) (b : RowBlock) : RowBlock :=
  match c with
  | cursor_pos_inc => pos_inc b
  | cursor_set_limit l => set_limit b l
  end.

(** [0 <= pos <= limit <= row_count]. *)
Definition cursor_in_bounds (b : RowBlock) : Prop :=
  0 <= pos b <= limit b /\ limit b <= row_num b.

(** States reached from [b0] by calls that keep the cursor in bounds. *)
Inductive cursor_reachable (b0 : RowBlock) : RowBlock -> Prop :=
  | reach_start : cursor_in_bounds b0 -> cursor_reachable b0 b0
  | reach_step c b :
      cursor_reachable b0 b -> cursor_in_bounds (cursor_step c b) ->
      cursor_reachable b0 (cursor_step c b).

Fixpoint pos_inc_times (n : nat) (b : RowBlock) : RowBlock :=
  match n with
  | O => b
  | S n' => pos_inc_times n' (pos_inc b)
  end.

(** ** Read accessors, run against the caller's state

    The caller holds the block and the cursor it passes to [get_row]. *)

Record Caller : Type := mkCaller {
  the_block : RowBlock;
  the_cursor : RowCursor
}.

Inductive Accessor : Type :=
  | acc_get_row (row_index : Z)
  | acc_field_ptr (row col : Z)
  | acc_row_num
  | acc_capacity
  | acc_pos
  | acc_limit
  | acc_remaining
  | acc_has_remaining
  | acc_block_status.

Inductive AccessorValue : Type :=
  | ret_void
  | ret_ptr (p : option Z)
  | ret_int (z : Z)
  | ret_bool (x : bool).

Definition call_accessor (a : Accessor) (st : Caller)
  : AccessorValue * Caller :=
  let b := the_block st in
  match a with
  | acc_get_row i =>
      (ret_void,
       {| the_block := b; the_cursor := get_row b i (the_cursor st) |})
  | acc_field_ptr row col => (ret_ptr (field_ptr b row col), st)
  | acc_row_num => (ret_int (row_num b), st)
  | acc_capacity => (ret_int (capacity b), st)
  | acc_pos => (ret_int (pos b), st)
  | acc_limit => (ret_int (limit b), st)
  | acc_remaining => (ret_int (remaining b), st)
  | acc_has_remaining => (ret_bool (has_remaining b), st)
  | acc_block_status => (ret_int (block_status b), st)
  end.

(** ** Well-formed blocks

    The sizes [init] establishes: the buffer holds [capacity] rows of
    [_mem_row_bytes] bytes, within the range of [size_t]. *)
Record wf_block (b : RowBlock) : Prop := mk_wf_block {
  wf_capacity : is_uint32 (_capacity b);
  wf_row_num : 0 <= row_num b <= _capacity b;
  wf_row_bytes : 0 <= _mem_row_bytes b;
  wf_buf_bytes : _mem_buf_bytes b = _mem_row_bytes b * _capacity b;
  wf_buf_size : is_size_t (_mem_buf_bytes b);
  wf_data : Z.of_nat (length (_mem_data b)) = _mem_buf_bytes b
}.

(** ** Reference notions the layout is compared with *)

(** The sum over the columns of (one null byte if enabled + value width). *)
Fixpoint sum_field_sizes (null_supported : bool) (cols : list TabletColumn)
  : Z :=
  match cols with
  | [] => 0
  | c :: rest => field_size null_supported c + sum_field_sizes null_supported rest
  end.

Definition strictly_increasing (l : list Z) : Prop :=
  forall (i j : nat) (x y : Z),
    l !! i = Some x -> l !! j = Some y -> (i < j)%nat -> x < y.

(** Where the value bytes of a field start inside a row. *)
Definition value_offset (e : FieldLayoutEntry) : Z :=
  offset e + (if has_null_byte e then 1 else 0).

(** What the sequential cursor would have to satisfy for [remaining] never
    to be wrong: read as a signed count it is not negative, and once
    [has_remaining] is false nothing remains. *)
Definition remaining_is_sound (b : RowBlock) : Prop :=
  0 <= as_signed64 (remaining b)
  /\ (has_remaining b = false -> remaining b = 0).

(** ** A concrete block

    Schema {INT key, VARCHAR value}, null support on, capacity 4, filled
    with keys 10, 20, 20, 30.  An INT takes 4 bytes and a VARCHAR a 16-byte
    descriptor, so a row is (1 + 4) + (1 + 16) = 22 bytes. *)

Definition scenario_schema : TabletSchema :=
  [ {| value_width := 4; is_nullable := false |};
    {| value_width := 16; is_nullable := true |} ].

Definition scenario_row (k : byte) : list byte :=
  [x00; k; x00; x00; x00; x00] ++ replicate 16 x00.

Definition scenario_empty : RowBlock :=
  {| _capacity := 4;
     _info := {| RowBlockInfo.checksum := 0; RowBlockInfo.row_num := 4;
                 RowBlockInfo.null_supported := true;
                 RowBlockInfo.column_ids := [] |};
     _schema := scenario_schema;
     _null_supported := true;
     _mem_buf := 4096;
     _mem_data := replicate 88 xff;
     _mem_buf_bytes := 88;
     _mem_row_bytes := 22;
     _field_offset_in_memory := [0; 5];
     _pos := 0; _limit := 0; _block_status := 2;
     _mem_pool := []; _finalized := false |}.

Definition scenario_writes : list (Z * list byte) :=
  [ (0, scenario_row x0a); (1, scenario_row x14);
    (2, scenario_row x14); (3, scenario_row x1e) ].

Definition scenario_block : RowBlock :=
  match refill scenario_empty scenario_writes with
  | Some b => snd (finalize b 4)
  | None => scenario_empty
  end.

Definition byte_to_Z (x : byte) : Z := Z.of_N (Byte.to_N x).

Fixpoint le_bytes_to_Z (l : list byte) : Z :=
  match l with
  | [] => 0
  | x :: rest => byte_to_Z x + 256 * le_bytes_to_Z rest
  end.

(** A three-way comparison on the INT key column: the key is the 4-byte
    little-endian integer after the null indicator. *)
Definition cmp_int_key (r q : list byte) : Z :=
  le_bytes_to_Z (slice r 1 4) - le_bytes_to_Z (slice q 1 4).

(** A write the block can take: a slot below the capacity and a source of
    at least one row. *)
Definition write_in_range (b : RowBlock) (w : Z * list byte) : Prop :=
  0 <= fst w < _capacity b
  /\ _mem_row_bytes b <= Z.of_nat (length (snd w)).

(** * AggregateType (package org.apache.doris.catalog) *)

(** [TAggregationType] (generated from the Thrift interface): the constants
    [toThrift] returns. *)
Module TAggregationType.
Inductive t : Type :=
  | SUM | MAX | MIN | REPLACE | NONE | HLL_UNION | BITMAP_UNION.
End TAggregationType.

(** [PrimitiveType], an enum of the same package whose declaration is not
    part of the sources: its carrier, the constants [AggregateType] names,
    and [PrimitiveType.values()]. *)
Class PrimitiveTypeEnum : Type := {
  PrimitiveType : Type;
  PrimitiveType_eq_dec :: EqDecision PrimitiveType;
  TINYINT : PrimitiveType;
  SMALLINT : PrimitiveType;
  INT : PrimitiveType;
  BIGINT : PrimitiveType;
  LARGEINT : PrimitiveType;
  FLOAT : PrimitiveType;
  DOUBLE : PrimitiveType;
  DECIMAL : PrimitiveType;
  DECIMALV2 : PrimitiveType;
  DATE : PrimitiveType;
  DATETIME : PrimitiveType;
  CHAR : PrimitiveType;
  VARCHAR : PrimitiveType;
  HLL : PrimitiveType;
  PrimitiveType_values : list PrimitiveType
}.

Module AggregateType.

Inductive t : Type :=
  | SUM | MIN | MAX | REPLACE | HLL_UNION | NONE | BITMAP_UNION.

#[global] Instance t_eq_dec : EqDecision t.
Proof. solve_decision. Defined.

Definition ordinal (a : t) : nat :=
  match a with
  | SUM => 0 | MIN => 1 | MAX => 2 | REPLACE => 3
  | HLL_UNION => 4 | NONE => 5 | BITMAP_UNION => 6
  end%nat.

Definition of_ordinal (n : nat) : t :=
  match n with
  | 0 => SUM | 1 => MIN | 2 => MAX | 3 => REPLACE
  | 4 => HLL_UNION | 5 => NONE | _ => BITMAP_UNION
  end%nat.

#[global] Instance t_countable : Countable t.
Proof.
  refine (inj_countable' ordinal of_ordinal _). intros []; reflexivity.
Defined.

(** The constructor argument of each constant. *)
Definition sqlName (a : t) : string :=
  match a with
  | SUM => "SUM" | MIN => "MIN" | MAX => "MAX" | REPLACE => "REPLACE"
  | HLL_UNION => "HLL_UNION" | NONE => "NONE"
  | BITMAP_UNION => "BITMAP_UNION"
  end.

Definition toSql (a : t) : string := sqlName a.
Definition toString (a : t) : string := toSql a.

(** The [switch] of [toThrift]; [None] is the [null] of its default
    branch. *)
Definition toThrift (a : t) : option TAggregationType.t :=
  match a with
  | SUM => Some TAggregationType.SUM
  | MAX => Some TAggregationType.MAX
  | MIN => Some TAggregationType.MIN
  | REPLACE => Some TAggregationType.REPLACE
  | NONE => Some TAggregationType.NONE
  | HLL_UNION => Some TAggregationType.HLL_UNION
  | BITMAP_UNION => Some TAggregationType.BITMAP_UNION
  end.

Section Compatibility.

Context `{PrimitiveTypeEnum}.

(** An [EnumSet<PrimitiveType>], by its elements. *)
Definition EnumSet : Type := list PrimitiveType.

(** [EnumSet.copyOf] of a collection that is not an [EnumSet] throws
    [IllegalArgumentException] when the collection is empty. *)
Definition copyOf (c : list PrimitiveType) : option EnumSet :=
  match c with
  | [] => None
  | _ :: _ => Some c
  end.

Definition allOf : EnumSet := PrimitiveType_values.

Definition contains (s : EnumSet) (x : PrimitiveType) : bool :=
  bool_decide (x ∈ s).

(** The two objects the static initializer works on: the local list it
    keeps refilling and the static map. *)
Record ClassState : Type := mkClassState {
  primitiveTypeList : list PrimitiveType;
  compatibilityMap : gmap t EnumSet
}.

Inductive Statement : Type :=
  | list_add (x : PrimitiveType)
  | list_clear
  | map_put_copyOf (aggType : t)
  | map_put_allOf (aggType : t).

(** One statement; [None] is an exception, which aborts the
    initialization of the class. *)
Definition exec_statement (s : Statement) (st : ClassState)
  : option ClassState :=
  match s with
  | list_add x =>
      Some {| primitiveTypeList := primitiveTypeList st ++ [x];
              compatibilityMap := compatibilityMap st |}
  | list_clear =>
      Some {| primitiveTypeList := [];
              compatibilityMap := compatibilityMap st |}
  | map_put_copyOf a =>
      set ← copyOf (primitiveTypeList st);
      Some {| primitiveTypeList := primitiveTypeList st;
              compatibilityMap := <[a := set]> (compatibilityMap st) |}
  | map_put_allOf a =>
      Some {| primitiveTypeList := primitiveTypeList st;
              compatibilityMap := <[a := allOf]> (compatibilityMap st) |}
  end.

Fixpoint exec (ss : list Statement) (st : ClassState) : option ClassState :=
  match ss with
  | [] => Some st
  | s :: rest => st' ← exec_statement s st; exec rest st'
  end.

(** The [static] block, statement by statement. *)
Definition static_initializer : list Statement :=
  [ list_add TINYINT; list_add SMALLINT; list_add INT; list_add BIGINT;
    list_add LARGEINT; list_add FLOAT; list_add DOUBLE; list_add DECIMAL;
    list_add DECIMALV2;
    map_put_copyOf SUM;
    list_clear;
    list_add TINYINT; list_add SMALLINT; list_add INT; list_add BIGINT;
    list_add LARGEINT; list_add FLOAT; list_add DOUBLE; list_add DECIMAL;
    list_add DECIMALV2; list_add DATE; list_add DATETIME; list_add CHAR;
    list_add VARCHAR;
    map_put_copyOf MIN;
    list_clear;
    list_add TINYINT; list_add SMALLINT; list_add INT; list_add BIGINT;
    list_add LARGEINT; list_add FLOAT; list_add DOUBLE; list_add DECIMAL;
    list_add DECIMALV2; list_add DATE; list_add DATETIME; list_add CHAR;
    list_add VARCHAR;
    map_put_copyOf MAX;
    list_clear;
    map_put_allOf REPLACE;
    list_clear;
    list_add HLL;
    map_put_copyOf HLL_UNION;
    list_clear;
    list_add VARCHAR;
    map_put_copyOf BITMAP_UNION;
    map_put_allOf NONE ].

(** The class after its initialization: a new [EnumMap] and a new list,
    then the [static] block. *)
Definition loaded : option ClassState :=
  exec static_initializer
       {| primitiveTypeList := []; compatibilityMap := ∅ |}.

(** [compatibilityMap.get(aggType)]; a missing key gives [null]. *)
Definition compatibilityMap_get (aggType : t) : option EnumSet :=
  st ← loaded; compatibilityMap st !! aggType.

(** The static [checkCompatibility]; [None] is an exception (the class did
    not initialize, or [contains] was called on [null]). *)
Definition checkCompatibility (aggType : t) (priType : PrimitiveType)
  : option bool :=
  set ← compatibilityMap_get aggType;
  Some (contains set priType).

(** The instance method of the same name. *)
Definition checkCompatibility_this (this : t) (priType : PrimitiveType)
  : option bool :=
  checkCompatibility this priType.

End Compatibility.

End AggregateType.

(** A [PrimitiveType] enum to run [AggregateType] on: the constants it
    names and one more. *)
Inductive sample_primitive_type : Type :=
  | pt_BOOLEAN | pt_TINYINT | pt_SMALLINT | pt_INT | pt_BIGINT | pt_LARGEINT
  | pt_FLOAT | pt_DOUBLE | pt_DECIMAL | pt_DECIMALV2 | pt_DATE | pt_DATETIME
  | pt_CHAR | pt_VARCHAR | pt_HLL.

#[global] Instance sample_primitive_type_eq_dec :
  EqDecision sample_primitive_type.
Proof. solve_decision. Defined.

Definition sample_primitive_types : PrimitiveTypeEnum :=
  {| PrimitiveType := sample_primitive_type;
     TINYINT := pt_TINYINT; SMALLINT := pt_SMALLINT; INT := pt_INT;
     BIGINT := pt_BIGINT; LARGEINT := pt_LARGEINT; FLOAT := pt_FLOAT;
     DOUBLE := pt_DOUBLE; DECIMAL := pt_DECIMAL; DECIMALV2 := pt_DECIMALV2;
     DATE := pt_DATE; DATETIME := pt_DATETIME; CHAR := pt_CHAR;
     VARCHAR := pt_VARCHAR; HLL := pt_HLL;
     PrimitiveType_values :=
       [ pt_BOOLEAN; pt_TINYINT; pt_SMALLINT; pt_INT; pt_BIGINT;
         pt_LARGEINT; pt_FLOAT; pt_DOUBLE; pt_DECIMAL; pt_DECIMALV2;
         pt_DATE; pt_DATETIME; pt_CHAR; pt_VARCHAR; pt_HLL ] |}.

(** * Proofs *)

(** Closes a goal about concrete data by evaluation. *)
Ltac by_evaluation :=
  vm_compute; repeat split;
  solve [reflexivity | discriminate | intro; discriminate].

(** ** Slices and splices of the buffer *)

Lemma slice_lookup (d : list byte) (off n : Z) (i : nat) :
  slice d off n !! i =
    if decide (i < Z.to_nat n)%nat then d !! (Z.to_nat off + i)%nat else None.
Proof.
  unfold slice. rewrite lookup_take.
  case_decide; [apply lookup_drop | reflexivity].
Qed.

Lemma splice_lookup (d : list byte) (off : Z) (src : list byte) (k : nat) :
  (Z.to_nat off <= length d)%nat ->
  splice d off src !! k =
    if decide (k < Z.to_nat off)%nat then d !! k
    else if decide (k < Z.to_nat off + length src)%nat
         then src !! (k - Z.to_nat off)%nat
         else d !! k.
Proof.
  intros Hoff. unfold splice.
  assert (Hlen : length (take (Z.to_nat off) d) = Z.to_nat off)
    by (rewrite length_take; lia).
  case_decide as H1.
  - rewrite lookup_app_l by lia. apply lookup_take_lt; lia.
  - rewrite lookup_app_r by lia. rewrite Hlen.
    case_decide as H2.
    + apply lookup_app_l; lia.
    + rewrite lookup_app_r by lia. rewrite lookup_drop. f_equal; lia.
Qed.

Lemma splice_length (d : list byte) (off : Z) (src : list byte) :
  (Z.to_nat off + length src <= length d)%nat ->
  length (splice d off src) = length d.
Proof.
  intros H. unfold splice.
  rewrite !length_app, length_take, length_drop. lia.
Qed.

Lemma slice_splice_inside (d : list byte) (off : Z) (src : list byte)
  (o n : Z) :
  0 <= off -> 0 <= o -> 0 <= n ->
  (Z.to_nat off + length src <= length d)%nat ->
  o + n <= Z.of_nat (length src) ->
  slice (splice d off src) (off + o) n = slice src o n.
Proof.
  intros Hoff Ho Hn Hfit Hin. apply list_eq. intros i.
  rewrite !slice_lookup. case_decide as Hi; [|reflexivity].
  rewrite splice_lookup by lia.
  rewrite decide_False by lia. rewrite decide_True by lia.
  f_equal. lia.
Qed.

Lemma slice_splice_outside (d : list byte) (off : Z) (src : list byte)
  (o n : Z) :
  0 <= off -> 0 <= o -> 0 <= n ->
  (Z.to_nat off + length src <= length d)%nat ->
  o + n <= off \/ off + Z.of_nat (length src) <= o ->
  slice (splice d off src) o n = slice d o n.
Proof.
  intros Hoff Ho Hn Hfit Hout. apply list_eq. intros i.
  rewrite !slice_lookup. case_decide as Hi; [|reflexivity].
  rewrite splice_lookup by lia.
  destruct Hout as [Hout|Hout].
  - rewrite decide_True by lia. reflexivity.
  - rewrite decide_False by lia. rewrite decide_False by lia. reflexivity.
Qed.

Lemma slice_whole_prefix (src : list byte) (n : Z) :
  slice src 0 n = take (Z.to_nat n) src.
Proof. unfold slice. reflexivity. Qed.

Lemma slice_of_take (src : list byte) (m o n : Z) :
  0 <= o -> 0 <= n -> o + n <= m ->
  slice (take (Z.to_nat m) src) o n = slice src o n.
Proof.
  intros Ho Hn Hm. apply list_eq. intros i.
  rewrite !slice_lookup. case_decide; [|reflexivity].
  apply lookup_take_lt. lia.
Qed.

(** ** Row addresses of a well-formed block *)

Lemma wrap_size_t_small (z : Z) : is_size_t z -> wrap_size_t z = z.
Proof. intros H. unfold wrap_size_t. apply Z.mod_small. exact H. Qed.

Lemma row_offset_bounds (b : RowBlock) (i : Z) :
  wf_block b -> 0 <= i < _capacity b ->
  0 <= i * _mem_row_bytes b
  /\ i * _mem_row_bytes b + _mem_row_bytes b <= _mem_buf_bytes b.
Proof.
  intros Hwf Hi. destruct Hwf as [_ _ Hrb Hbb _ _].
  rewrite Hbb. split; nia.
Qed.

Lemma row_address_exact (b : RowBlock) (i : Z) :
  wf_block b -> 0 <= i < _capacity b ->
  row_address b i = _mem_buf b + i * _mem_row_bytes b.
Proof.
  intros Hwf Hi. unfold row_address.
  destruct (row_offset_bounds b i Hwf Hi) as [H0 H1].
  rewrite wrap_size_t_small; [reflexivity|].
  destruct Hwf as [_ _ Hrb _ Hsz _]. unfold is_size_t in *. lia.
Qed.

Lemma in_buffer_true (b : RowBlock) (p n : Z) :
  0 <= n -> _mem_buf b <= p ->
  p + n <= _mem_buf b + Z.of_nat (length (_mem_data b)) ->
  in_buffer b p n = true.
Proof.
  intros. unfold in_buffer.
  rewrite !andb_true_iff, !Z.leb_le. lia.
Qed.

Lemma row_in_buffer (b : RowBlock) (i o n : Z) :
  wf_block b -> 0 <= i < _capacity b ->
  0 <= o -> 0 <= n -> o + n <= _mem_row_bytes b ->
  in_buffer b (_mem_buf b + i * _mem_row_bytes b + o) n = true.
Proof.
  intros Hwf Hi Ho Hn Hon.
  destruct (row_offset_bounds b i Hwf Hi) as [H0 H1].
  apply in_buffer_true; [lia|lia|].
  rewrite (wf_data b Hwf). lia.
Qed.

Lemma cursor_row_get_row (b : RowBlock) (i : Z) (c : RowCursor) :
  wf_block b -> 0 <= i < _capacity b ->
  cursor_row b (get_row b i c) = Some (row_bytes b i).
Proof.
  intros Hwf Hi. unfold cursor_row, get_row, attach, load. simpl.
  rewrite (row_address_exact b i Hwf Hi).
  pose proof (row_in_buffer b i 0 (_mem_row_bytes b) Hwf Hi) as Hin.
  rewrite Z.add_0_r in Hin. rewrite Hin by (destruct Hwf; lia).
  unfold row_bytes. do 2 f_equal. lia.
Qed.

(** ** The layout table *)

Lemma sum_field_sizes_nonneg (ns : bool) (cols : list TabletColumn) :
  Forall (fun c => 0 < value_width c) cols -> 0 <= sum_field_sizes ns cols.
Proof.
  induction 1 as [|c rest Hc _ IH]; simpl; [lia|].
  unfold field_size. destruct ns; lia.
Qed.

Lemma sum_field_sizes_take_lt (ns : bool) (cols : list TabletColumn)
  (i j : nat) :
  Forall (fun c => 0 < value_width c) cols ->
  (i < j <= length cols)%nat ->
  sum_field_sizes ns (take i cols) < sum_field_sizes ns (take j cols).
Proof.
  intros Hpos. revert i j.
  induction Hpos as [|c rest Hc Hrest IH]; intros i j Hij; simpl in Hij.
  - lia.
  - destruct j as [|j]; [lia|]. destruct i as [|i]; simpl.
    + assert (0 <= sum_field_sizes ns (take j rest))
        by (apply sum_field_sizes_nonneg, Forall_take, Hrest).
      unfold field_size. destruct ns; lia.
    + assert (sum_field_sizes ns (take i rest)
              < sum_field_sizes ns (take j rest)) by (apply IH; lia).
      lia.
Qed.

Lemma sum_field_sizes_take_S (ns : bool) (cols : list TabletColumn)
  (k : nat) (c : TabletColumn) :
  cols !! k = Some c ->
  sum_field_sizes ns (take (S k) cols)
  = sum_field_sizes ns (take k cols) + field_size ns c.
Proof.
  revert k. induction cols as [|c0 rest IH]; intros k Hk; [discriminate|].
  destruct k as [|k]; simpl in *.
  - injection Hk as ->. lia.
  - rewrite (IH k Hk). lia.
Qed.

Lemma sum_field_sizes_take_le (ns : bool) (cols : list TabletColumn)
  (k : nat) :
  Forall (fun c => 0 < value_width c) cols ->
  sum_field_sizes ns (take k cols) <= sum_field_sizes ns cols.
Proof.
  intros Hpos. destruct (decide (k < length cols)%nat) as [Hk|Hk].
  - rewrite <- (take_ge cols (length cols)) at 2 by lia.
    apply Z.lt_le_incl, sum_field_sizes_take_lt; [exact Hpos | lia].
  - rewrite take_ge by lia. lia.
Qed.

Lemma layout_from_positive (cols : list TabletColumn) (ns : bool)
  (col_id running : Z) :
  Forall (fun c => 0 < value_width c) cols ->
  exists entries,
    layout_from cols ns col_id running
      = Some (running + sum_field_sizes ns cols, entries)
    /\ length entries = length cols
    /\ forall (k : nat) (e : FieldLayoutEntry),
         entries !! k = Some e ->
         exists c, cols !! k = Some c
                   /\ column_id e = col_id + Z.of_nat k
                   /\ offset e = running + sum_field_sizes ns (take k cols)
                   /\ has_null_byte e = ns
                   /\ width e = value_width c.
Proof.
  intros Hpos. revert col_id running.
  induction Hpos as [|c rest Hc _ IH]; intros col_id running; simpl.
  - exists []. split; [f_equal; f_equal; lia|]. split; [reflexivity|].
    intros k e Hk. discriminate.
  - destruct (Z.leb_spec (value_width c) 0) as [Hle|_]; [lia|].
    destruct (IH (col_id + 1) (running + field_size ns c))
      as (es & Heq & Hlen & Hes).
    rewrite Heq. simpl. eexists. split; [f_equal; f_equal; lia|].
    split; [simpl; lia|].
    intros [|k] e Hk; simpl in Hk.
    + injection Hk as <-. exists c. simpl. repeat split; lia.
    + destruct (Hes k e Hk) as (c' & Hc' & Hid & Hoff & Hnull & Hw).
      exists c'. simpl. repeat split; try assumption; lia.
Qed.

Lemma layout_from_nonpositive (cols : list TabletColumn) (ns : bool)
  (col_id running : Z) :
  Exists (fun c => value_width c <= 0) cols ->
  layout_from cols ns col_id running = None.
Proof.
  intros Hex. revert col_id running.
  induction Hex as [c rest Hc|c rest _ IH]; intros col_id running; simpl.
  - destruct (Z.leb_spec (value_width c) 0); [reflexivity|lia].
  - destruct (value_width c <=? 0); [reflexivity|]. rewrite IH. reflexivity.
Qed.

(** What every entry of a computed layout satisfies. *)
Lemma compute_layout_entry (schema : TabletSchema) (ns : bool) (stride : Z)
  (entries : list FieldLayoutEntry) (k : nat) (e : FieldLayoutEntry) :
  compute_layout schema ns = Some (stride, entries) ->
  entries !! k = Some e ->
  stride = sum_field_sizes ns schema
  /\ has_null_byte e = ns
  /\ 0 < width e
  /\ offset e = sum_field_sizes ns (take k schema)
  /\ 0 <= offset e
  /\ offset e + entry_size e <= stride.
Proof.
  intros Hcl Hk. unfold compute_layout in Hcl.
  destruct (decide (Forall (fun c => 0 < value_width c) schema))
    as [Hpos|Hneg].
  - destruct (layout_from_positive schema ns 0 0 Hpos)
      as (es & Heq & Hlen & Hes).
    rewrite Heq in Hcl. injection Hcl as <- <-.
    destruct (Hes k e Hk) as (c & Hc & _ & Hoff & Hnull & Hw).
    assert (Hck : 0 < value_width c)
      by (rewrite Forall_lookup in Hpos; exact (Hpos k c Hc)).
    pose proof (sum_field_sizes_take_S ns schema k c Hc) as HS.
    pose proof (sum_field_sizes_take_le ns schema (S k) Hpos) as Hle.
    pose proof (sum_field_sizes_nonneg ns (take k schema)
                  (Forall_take _ _ _ Hpos)) as H0.
    unfold entry_size. rewrite Hnull, Hw, Hoff.
    unfold field_size in HS. repeat split; lia.
  - apply not_Forall_Exists in Hneg; [|intros c; apply Z_lt_dec].
    rewrite layout_from_nonpositive in Hcl; [discriminate|].
    eapply Exists_impl; [exact Hneg|]. simpl. intros c Hc. lia.
Qed.

(** C5: for a schema whose columns all have positive width,
    [compute_layout] succeeds; the offsets it records are strictly
    increasing and the first one is 0; the entry of column [k] carries the
    null-support flag, the column's width, and as offset the sum of the sizes
    of the columns before it, so that the offset is the address of the null
    indicator when nulls are supported and of the value otherwise; the row
    stride is the sum over all columns of (null byte if enabled + value
    width).  For a schema with a column of zero or negative width it
    fails. *)
Theorem compute_layout_correct (schema : TabletSchema) (ns : bool) :
  (Forall (fun c => 0 < value_width c) schema ->
   exists entries,
     compute_layout schema ns = Some (sum_field_sizes ns schema, entries)
     /\ length entries = length schema
     /\ strictly_increasing (offset <$> entries)
     /\ (forall e, entries !! 0%nat = Some e -> offset e = 0)
     /\ (forall (k : nat) (e : FieldLayoutEntry),
           entries !! k = Some e ->
           exists c, schema !! k = Some c
             /\ column_id e = Z.of_nat k
             /\ has_null_byte e = ns
             /\ width e = value_width c
             /\ offset e = sum_field_sizes ns (take k schema)
             /\ value_offset e = offset e + (if ns then 1 else 0)
             /\ value_offset e + width e
                = sum_field_sizes ns (take (S k) schema)))
  /\ (Exists (fun c => value_width c <= 0) schema ->
      compute_layout schema ns = None).
Proof.
  split.
  - intros Hpos. unfold compute_layout.
    destruct (layout_from_positive schema ns 0 0 Hpos)
      as (es & Heq & Hlen & Hes).
    exists es. split; [rewrite Heq; reflexivity|].
    split; [exact Hlen|]. split; [|split].
    + intros i j x y Hi Hj Hij.
      rewrite list_lookup_fmap in Hi, Hj.
      destruct (es !! i) as [ei|] eqn:Hei; [|discriminate].
      destruct (es !! j) as [ej|] eqn:Hej; [|discriminate].
      simpl in Hi, Hj. injection Hi as <-. injection Hj as <-.
      destruct (Hes i ei Hei) as (_ & _ & _ & -> & _).
      destruct (Hes j ej Hej) as (_ & _ & _ & -> & _).
      apply lookup_lt_Some in Hej.
      pose proof (sum_field_sizes_take_lt ns schema i j Hpos). lia.
    + intros e He. destruct (Hes 0%nat e He) as (_ & _ & _ & -> & _).
      reflexivity.
    + intros k e He.
      destruct (Hes k e He) as (c & Hc & Hid & Hoff & Hnull & Hw).
      exists c. rewrite (sum_field_sizes_take_S ns schema k c Hc).
      unfold value_offset, field_size. rewrite Hnull, Hw, Hoff.
      repeat split; try assumption; lia.
  - apply layout_from_nonpositive.
Qed.

Lemma compute_layout_length (schema : TabletSchema) (ns : bool) (stride : Z)
  (entries : list FieldLayoutEntry) :
  compute_layout schema ns = Some (stride, entries) ->
  length entries = length schema.
Proof.
  intros Hcl. unfold compute_layout in Hcl.
  destruct (decide (Forall (fun c => 0 < value_width c) schema))
    as [Hpos|Hneg].
  - destruct (layout_from_positive schema ns 0 0 Hpos)
      as (es & Heq & Hlen & _).
    rewrite Heq in Hcl. injection Hcl as _ <-. exact Hlen.
  - apply not_Forall_Exists in Hneg; [|intros c; apply Z_lt_dec].
    rewrite layout_from_nonpositive in Hcl; [discriminate|].
    eapply Exists_impl; [exact Hneg|]. simpl. intros c Hc. lia.
Qed.

(** ** Writing and reading rows *)

Lemma wf_with_mem_data (b : RowBlock) (d : list byte) :
  wf_block b -> length d = length (_mem_data b) ->
  wf_block (with_mem_data b d).
Proof.
  intros [H1 H2 H3 H4 H5 H6] Hd.
  constructor; simpl; try assumption. rewrite Hd. exact H6.
Qed.

Lemma set_row_defined (b : RowBlock) (i : Z) (src : list byte) :
  wf_block b -> 0 <= i < _capacity b ->
  _mem_row_bytes b <= Z.of_nat (length src) ->
  set_row b i src
  = Some (with_mem_data b
            (splice (_mem_data b) (i * _mem_row_bytes b)
                    (take (Z.to_nat (_mem_row_bytes b)) src))).
Proof.
  intros Hwf Hi Hsrc. unfold set_row, memcpy.
  rewrite (row_address_exact b i Hwf Hi).
  pose proof (row_in_buffer b i 0 (_mem_row_bytes b) Hwf Hi) as Hin.
  rewrite Z.add_0_r in Hin. rewrite Hin by (destruct Hwf; lia).
  destruct (Z.leb_spec (_mem_row_bytes b) (Z.of_nat (length src)));
    [|lia].
  simpl. do 3 f_equal. lia.
Qed.

Lemma written_row_fits (b : RowBlock) (i : Z) (src : list byte) :
  wf_block b -> 0 <= i < _capacity b ->
  _mem_row_bytes b <= Z.of_nat (length src) ->
  length (take (Z.to_nat (_mem_row_bytes b)) src)
  = Z.to_nat (_mem_row_bytes b)
  /\ (Z.to_nat (i * _mem_row_bytes b)
      + length (take (Z.to_nat (_mem_row_bytes b)) src)
      <= length (_mem_data b))%nat.
Proof.
  intros Hwf Hi Hsrc.
  destruct (row_offset_bounds b i Hwf Hi) as [H0 H1].
  pose proof (wf_data b Hwf) as Hd. pose proof (wf_row_bytes b Hwf) as Hr.
  rewrite length_take. split; lia.
Qed.

(** The round trip for every slot of the buffer, filled or not. *)
Lemma set_row_round_trip_below_capacity (b : RowBlock) (index : Z)
  (source : list byte) :
  wf_block b ->
  0 <= index < _capacity b ->
  _mem_row_bytes b <= Z.of_nat (length source) ->
  exists b',
    set_row b index source = Some b'
    /\ b' = with_mem_data b (_mem_data b')
    /\ length (_mem_data b') = length (_mem_data b)
    /\ (forall cursor,
          _fixed_buf (get_row b' index cursor)
          = _mem_buf b' + index * _mem_row_bytes b')
    /\ (forall cursor,
          cursor_row b' (get_row b' index cursor)
          = Some (take (Z.to_nat (_mem_row_bytes b)) source))
    /\ (forall cursor off n,
          0 <= off -> 0 <= n -> off + n <= _mem_row_bytes b ->
          load b' (_fixed_buf (get_row b' index cursor) + off) n
          = Some (slice source off n))
    /\ (forall cursor entries (col : nat) e,
          layout_computed b entries -> entries !! col = Some e ->
          read_field b' (get_row b' index cursor) e
          = Some (slice source (offset e) (entry_size e)))
    /\ (forall j cursor,
          0 <= j < _capacity b -> j <> index ->
          row_bytes b' j = row_bytes b j
          /\ cursor_row b' (get_row b' j cursor)
             = cursor_row b (get_row b j cursor)).
Proof.
  intros Hwf Hi Hsrc.
  destruct (written_row_fits b index source Hwf Hi Hsrc) as [Hlen Hfit].
  destruct (row_offset_bounds b index Hwf Hi) as [Hlo Hhi].
  pose proof (wf_row_bytes b Hwf) as Hrb.
  eexists. split; [apply set_row_defined; assumption|].
  set (d' := splice _ _ _).
  assert (Hd' : length d' = length (_mem_data b))
    by (apply splice_length; exact Hfit).
  assert (Hwf' : wf_block (with_mem_data b d'))
    by (apply wf_with_mem_data; assumption).
  assert (Hrow : row_bytes (with_mem_data b d') index
                 = take (Z.to_nat (_mem_row_bytes b)) source).
  { unfold row_bytes. simpl. subst d'.
    rewrite <- (Z.add_0_r (index * _mem_row_bytes b)) at 2.
    rewrite slice_splice_inside by lia.
    rewrite slice_whole_prefix. apply take_idemp. }
  split; [reflexivity|]. split; [exact Hd'|].
  split; [intros cursor; apply (row_address_exact _ index Hwf' Hi)|].
  split.
  { intros cursor. rewrite (cursor_row_get_row _ index cursor Hwf' Hi).
    f_equal. exact Hrow. }
  assert (Hrange : forall cursor off n,
            0 <= off -> 0 <= n -> off + n <= _mem_row_bytes b ->
            load (with_mem_data b d')
                 (_fixed_buf (get_row (with_mem_data b d') index cursor) + off)
                 n
            = Some (slice source off n)).
  { intros cursor off n Hoff Hn Hend.
    unfold get_row, attach, load. simpl _fixed_buf.
    rewrite (row_address_exact _ index Hwf' Hi).
    rewrite (row_in_buffer _ index off n Hwf' Hi) by (simpl; lia).
    f_equal. simpl. subst d'.
    replace (_mem_buf b + index * _mem_row_bytes b + off - _mem_buf b)
      with (index * _mem_row_bytes b + off) by lia.
    rewrite slice_splice_inside by lia.
    apply slice_of_take; lia. }
  split; [exact Hrange|].
  split.
  { intros cursor entries col e [Hcl _] He.
    destruct (compute_layout_entry _ _ _ _ col e Hcl He)
      as (_ & _ & Hw & _ & Hoff & Hend).
    assert (Hsz : 0 <= entry_size e)
      by (unfold entry_size; destruct (has_null_byte e); lia).
    unfold read_field. apply Hrange; lia. }
  intros j cursor Hj Hne.
  assert (Hother : row_bytes (with_mem_data b d') j = row_bytes b j).
  { unfold row_bytes. simpl. subst d'.
    apply slice_splice_outside; [lia|nia|lia|exact Hfit|].
    rewrite Hlen. nia. }
  split; [exact Hother|].
  rewrite (cursor_row_get_row _ j cursor Hwf' Hj).
  rewrite (cursor_row_get_row _ j cursor Hwf Hj).
  f_equal. exact Hother.
Qed.

(** C2: in a well-formed block, for every index in [0, row_count) and a
    source of at least [row_stride] bytes, [set_row] is defined and copies
    exactly the first [row_stride] bytes of the source into the slot;
    afterwards [get_row] attaches a cursor to byte address
    [index * row_stride] of the buffer; the row, every byte range inside it
    and so every field of the layout, read through that cursor, are the
    bytes of the source; every other row and the rest of the block state are
    as before. *)
Theorem set_row_get_row_round_trip (b : RowBlock) (index : Z)
  (source : list byte) :
  wf_block b ->
  0 <= index < row_num b ->
  _mem_row_bytes b <= Z.of_nat (length source) ->
  exists b',
    set_row b index source = Some b'
    /\ b' = with_mem_data b (_mem_data b')
    /\ length (_mem_data b') = length (_mem_data b)
    /\ (forall cursor,
          _fixed_buf (get_row b' index cursor)
          = _mem_buf b' + index * _mem_row_bytes b')
    /\ (forall cursor,
          cursor_row b' (get_row b' index cursor)
          = Some (take (Z.to_nat (_mem_row_bytes b)) source))
    /\ (forall cursor off n,
          0 <= off -> 0 <= n -> off + n <= _mem_row_bytes b ->
          load b' (_fixed_buf (get_row b' index cursor) + off) n
          = Some (slice source off n))
    /\ (forall cursor entries (col : nat) e,
          layout_computed b entries -> entries !! col = Some e ->
          read_field b' (get_row b' index cursor) e
          = Some (slice source (offset e) (entry_size e)))
    /\ (forall j cursor,
          0 <= j < _capacity b -> j <> index ->
          row_bytes b' j = row_bytes b j
          /\ cursor_row b' (get_row b' j cursor)
             = cursor_row b (get_row b j cursor)).
Proof.
  intros Hwf Hidx Hsrc.
  apply set_row_round_trip_below_capacity; [exact Hwf| |exact Hsrc].
  pose proof (wf_row_num b Hwf). lia.
Qed.

(** C9: in a well-formed block whose layout is the one computed for its
    schema, for every row below the row count and every column of the
    schema, [field_ptr] is buffer base + row * row_stride + the column's
    layout offset; that address lies inside the row, it is the address of
    the null indicator when nulls are supported (the value starts one byte
    later) and of the value otherwise, and it is where a cursor attached to
    the row reads the field. *)
Theorem field_ptr_address (b : RowBlock) (entries : list FieldLayoutEntry)
  (row col : Z) :
  wf_block b ->
  layout_computed b entries ->
  0 <= row < row_num b ->
  0 <= col < Z.of_nat (length (_schema b)) ->
  exists e,
    entries !! Z.to_nat col = Some e
    /\ field_ptr b row col
       = Some (_mem_buf b + row * _mem_row_bytes b + offset e)
    /\ offset e
       = sum_field_sizes (_null_supported b) (take (Z.to_nat col) (_schema b))
    /\ has_null_byte e = _null_supported b
    /\ _mem_buf b + row * _mem_row_bytes b + value_offset e
       = _mem_buf b + row * _mem_row_bytes b + offset e
         + (if _null_supported b then 1 else 0)
    /\ 0 <= offset e
    /\ offset e + entry_size e <= _mem_row_bytes b
    /\ (forall cursor,
          read_field b (get_row b row cursor) e
          = load b (_mem_buf b + row * _mem_row_bytes b + offset e)
                 (entry_size e)).
Proof.
  intros Hwf [Hcl Hoffs] Hrow Hcol.
  assert (Hr : 0 <= row < _capacity b)
    by (pose proof (wf_row_num b Hwf); lia).
  pose proof (compute_layout_length _ _ _ _ Hcl) as Hlen.
  destruct (lookup_lt_is_Some_2 entries (Z.to_nat col)) as [e He]; [lia|].
  destruct (compute_layout_entry _ _ _ _ _ e Hcl He)
    as (_ & Hnull & _ & Hoff & H0 & Hend).
  exists e. split; [exact He|]. split.
  { unfold field_ptr. rewrite Hoffs, list_lookup_fmap, He. simpl.
    pose proof (row_address_exact b row Hwf Hr) as Ha.
    unfold row_address in Ha.
    rewrite (Z.mul_comm (_mem_row_bytes b) row).
    rewrite Ha. reflexivity. }
  split; [exact Hoff|]. split; [exact Hnull|].
  split; [unfold value_offset; rewrite Hnull; lia|].
  split; [exact H0|]. split; [exact Hend|].
  intros cursor. unfold read_field, get_row, attach. simpl _fixed_buf.
  rewrite (row_address_exact b row Hwf Hr). reflexivity.
Qed.

(** ** The search loops *)

Lemma shiftr_1_bounds (len : Z) :
  0 < len -> 0 <= Z.shiftr len 1 < len.
Proof.
  intros H. rewrite Z.shiftr_div_pow2 by lia.
  change (2 ^ 1) with 2. split.
  - apply Z.div_pos; lia.
  - apply Z.div_lt; lia.
Qed.

(** The lower-bound loop finds the partition point of a predicate that is
    defined on the range and, once false, stays false. *)
Lemma lower_bound_loop_partition (comp : Z -> option bool) (p : Z -> bool)
  (fuel : nat) :
  forall first len : Z,
    0 <= len -> (Z.to_nat len < fuel)%nat ->
    (forall i, first <= i < first + len -> comp i = Some (p i)) ->
    (forall i j, first <= i -> i <= j -> j < first + len ->
                 p j = true -> p i = true) ->
    exists r,
      lower_bound_loop comp fuel first len = Some r
      /\ first <= r <= first + len
      /\ (forall i, first <= i < r -> p i = true)
      /\ (forall i, r <= i < first + len -> p i = false).
Proof.
  induction fuel as [|fuel IH]; intros first len Hlen Hfuel Hcomp Hmono;
    [lia|].
  simpl. destruct (Z.ltb_spec 0 len) as [Hpos|Hzero].
  - pose proof (shiftr_1_bounds len Hpos) as Hhalf.
    set (half := Z.shiftr len 1) in *.
    rewrite (Hcomp (first + half)) by lia. simpl.
    destruct (p (first + half)) eqn:Hmid.
    + destruct (IH (first + half + 1) (len - half - 1)) as (r & Hr & Hb & Ht & Hf).
      * lia.
      * lia.
      * intros i Hi. apply Hcomp. lia.
      * intros i j Hi Hij Hj. apply Hmono; lia.
      * exists r. split; [exact Hr|]. split; [lia|]. split.
        -- intros i Hi. destruct (Z.lt_ge_cases (first + half) i) as [Hgt|Hle].
           ++ apply Ht. lia.
           ++ apply (Hmono i (first + half)); [lia|lia|lia|exact Hmid].
        -- intros i Hi. apply Hf. lia.
    + destruct (IH first half) as (r & Hr & Hb & Ht & Hf).
      * lia.
      * lia.
      * intros i Hi. apply Hcomp. lia.
      * intros i j Hi Hij Hj. apply Hmono; lia.
      * exists r. split; [exact Hr|]. split; [lia|]. split.
        -- exact Ht.
        -- intros i Hi. destruct (Z.lt_ge_cases i (first + half)) as [Hlt|Hge].
           ++ apply Hf. lia.
           ++ destruct (p i) eqn:Hpi; [|reflexivity].
              rewrite (Hmono (first + half) i) in Hmid;
                [discriminate|lia|lia|lia|exact Hpi].
  - exists first. split; [reflexivity|]. split; [lia|]. split; intros; lia.
Qed.

(** The upper-bound loop is the lower-bound loop of the negated test. *)
Lemma upper_bound_loop_as_lower (comp : Z -> option bool) (fuel : nat) :
  forall first len : Z,
    upper_bound_loop comp fuel first len
    = lower_bound_loop (fun i => negb <$> comp i) fuel first len.
Proof.
  induction fuel as [|fuel IH]; intros first len; [reflexivity|].
  simpl. destruct (0 <? len); [|reflexivity].
  destruct (comp (first + Z.shiftr len 1)) as [[|]|]; simpl;
    [apply IH|apply IH|reflexivity].
Qed.

(** ** Counting rows *)

Lemma count_rows_app (p : list byte -> bool) (l1 l2 : list (list byte)) :
  count_rows p (l1 ++ l2) = count_rows p l1 + count_rows p l2.
Proof. induction l1 as [|r l1 IH]; simpl; [reflexivity|]. rewrite IH. lia. Qed.

Lemma count_rows_all (p : list byte -> bool) (l : list (list byte)) :
  Forall (fun r => p r = true) l -> count_rows p l = Z.of_nat (length l).
Proof.
  induction 1 as [|r l Hr _ IH]; simpl; [reflexivity|]. rewrite Hr, IH. lia.
Qed.

Lemma count_rows_none (p : list byte -> bool) (l : list (list byte)) :
  Forall (fun r => p r = false) l -> count_rows p l = 0.
Proof.
  induction 1 as [|r l Hr _ IH]; simpl; [reflexivity|]. rewrite Hr, IH. lia.
Qed.

Lemma Forall_fmap_seqZ (P : list byte -> Prop) (f : Z -> list byte)
  (m n : Z) :
  (forall i, m <= i < m + n -> P (f i)) -> Forall P (f <$> seqZ m n).
Proof.
  intros H. apply Forall_lookup. intros i r Hi.
  rewrite list_lookup_fmap in Hi.
  destruct (seqZ m n !! i) as [z|] eqn:Hz; [|discriminate].
  injection Hi as <-. apply lookup_seqZ in Hz. apply H. lia.
Qed.

Lemma count_rows_partition (p : list byte -> bool) (f : Z -> list byte)
  (n r : Z) :
  0 <= r <= n ->
  (forall i, 0 <= i < r -> p (f i) = true) ->
  (forall i, r <= i < n -> p (f i) = false) ->
  count_rows p (f <$> seqZ 0 n) = r.
Proof.
  intros Hr Ht Hf.
  replace n with (r + (n - r)) by lia.
  rewrite seqZ_app by lia. rewrite fmap_app, count_rows_app.
  rewrite count_rows_all by (apply Forall_fmap_seqZ; intros; apply Ht; lia).
  rewrite count_rows_none by (apply Forall_fmap_seqZ; intros; apply Hf; lia).
  rewrite length_fmap, length_seqZ. lia.
Qed.

Lemma rows_lookup (b : RowBlock) (i : Z) :
  0 <= i < row_num b -> rows b !! Z.to_nat i = Some (row_bytes b i).
Proof.
  intros Hi. unfold rows. rewrite list_lookup_fmap.
  rewrite lookup_seqZ_lt by lia. simpl. do 2 f_equal. lia.
Qed.

(** ** Binary search over a sorted block *)

Section SearchProofs.

Variable cmp : list byte -> list byte -> Z.
Context {cmp_total : ThreeWay cmp}.

Lemma cmp_le_lt_trans (a b c : list byte) :
  cmp a b <= 0 -> cmp b c < 0 -> cmp a c < 0.
Proof.
  intros Hab Hbc.
  destruct (Z.lt_ge_cases (cmp a c) 0) as [H|H]; [exact H|].
  assert (Hca : cmp c a <= 0).
  { destruct (Z.lt_ge_cases 0 (cmp c a)) as [Hpos|Hle]; [|lia].
    apply (cmp_swap a c) in Hpos. lia. }
  pose proof (cmp_trans c a b Hca Hab) as Hcb.
  apply (cmp_swap b c) in Hbc. lia.
Qed.

Lemma cmp_le_gt_trans (a b c : list byte) :
  cmp a b <= 0 -> 0 < cmp a c -> 0 < cmp b c.
Proof.
  intros Hab Hac.
  destruct (Z.lt_ge_cases 0 (cmp b c)) as [H|H]; [exact H|].
  pose proof (cmp_trans a b c Hab). lia.
Qed.

Lemma cmp_refl_le (a : list byte) : cmp a a <= 0.
Proof.
  destruct (Z.lt_ge_cases 0 (cmp a a)) as [H|H]; [|lia].
  pose proof (proj2 (cmp_swap a a) H). lia.
Qed.

Lemma sorted_rows_tail (r : list byte) (l : list (list byte)) :
  sorted_rows cmp (r :: l) = true -> sorted_rows cmp l = true.
Proof.
  simpl. destruct l as [|r' l]; [reflexivity|].
  intros H. apply andb_true_iff in H. apply H.
Qed.

Lemma sorted_rows_pairwise (l : list (list byte)) :
  sorted_rows cmp l = true ->
  forall (i j : nat) (ri rj : list byte),
    l !! i = Some ri -> l !! j = Some rj -> (i <= j)%nat -> cmp ri rj <= 0.
Proof.
  induction l as [|r l IH]; intros Hs i j ri rj Hi Hj Hij; [discriminate|].
  pose proof (sorted_rows_tail r l Hs) as Hl.
  destruct i as [|i], j as [|j]; simpl in Hi, Hj.
  - injection Hi as <-. injection Hj as <-. apply cmp_refl_le.
  - injection Hi as <-. destruct l as [|r' l]; [discriminate|].
    simpl in Hs. apply andb_true_iff in Hs. destruct Hs as [Hrr' _].
    apply Z.leb_le in Hrr'.
    apply (cmp_trans r r' rj Hrr').
    apply (IH Hl 0%nat j r' rj); [reflexivity|exact Hj|lia].
  - lia.
  - apply (IH Hl i j ri rj Hi Hj). lia.
Qed.

Lemma sorted_block_pairwise (b : RowBlock) (i j : Z) :
  sorted_rows cmp (rows b) = true ->
  0 <= i -> i <= j -> j < row_num b ->
  cmp (row_bytes b i) (row_bytes b j) <= 0.
Proof.
  intros Hs Hi Hij Hj.
  apply (sorted_rows_pairwise (rows b) Hs (Z.to_nat i) (Z.to_nat j));
    [apply rows_lookup; lia | apply rows_lookup; lia | lia].
Qed.

Lemma comparator_less_value (b : RowBlock) (h : RowCursor) (i : Z)
  (key : list byte) :
  wf_block b -> 0 <= i < row_num b ->
  comparator_less cmp b h i key = Some (cmp (row_bytes b i) key <? 0).
Proof.
  intros Hwf Hi. unfold comparator_less, _compare.
  rewrite cursor_row_get_row; [reflexivity|exact Hwf|].
  pose proof (wf_row_num b Hwf). lia.
Qed.

Lemma comparator_larger_value (b : RowBlock) (h : RowCursor) (i : Z)
  (key : list byte) :
  wf_block b -> 0 <= i < row_num b ->
  negb <$> comparator_larger cmp b h key i
  = Some (cmp (row_bytes b i) key <=? 0).
Proof.
  intros Hwf Hi. unfold comparator_larger, _compare.
  rewrite cursor_row_get_row;
    [|exact Hwf|pose proof (wf_row_num b Hwf); lia].
  simpl. f_equal.
  destruct (Z.gtb_spec (cmp (row_bytes b i) key) 0),
           (Z.leb_spec (cmp (row_bytes b i) key) 0);
    simpl; (reflexivity || lia).
Qed.

Lemma lower_bound_rows (b : RowBlock) (h : RowCursor) (q : list byte) :
  wf_block b -> sorted_rows cmp (rows b) = true ->
  exists r,
    lower_bound (fun i => comparator_less cmp b h i q) 0 (row_num b) = Some r
    /\ is_lower_bound cmp b q r.
Proof.
  intros Hwf Hs. pose proof (wf_row_num b Hwf) as Hn.
  unfold lower_bound.
  destruct (lower_bound_loop_partition
              (fun i => comparator_less cmp b h i q)
              (fun i => cmp (row_bytes b i) q <? 0)
              (S (Z.to_nat (row_num b - 0))) 0 (row_num b - 0))
    as (r & Hr & Hb & Ht & Hf).
  - lia.
  - lia.
  - intros i Hi. apply comparator_less_value; [exact Hwf|lia].
  - intros i j Hi Hij Hj Hpj. apply Z.ltb_lt in Hpj. apply Z.ltb_lt.
    apply (cmp_le_lt_trans _ (row_bytes b j)); [|exact Hpj].
    apply sorted_block_pairwise; [exact Hs|lia|lia|lia].
  - exists r. split; [exact Hr|]. split; [lia|]. split.
    + intros j Hj. apply Z.ltb_lt. apply Ht. lia.
    + intros j Hj. apply Z.ltb_ge. apply Hf. lia.
Qed.

Lemma upper_bound_rows (b : RowBlock) (h : RowCursor) (q : list byte) :
  wf_block b -> sorted_rows cmp (rows b) = true ->
  exists r,
    upper_bound (comparator_larger cmp b h q) 0 (row_num b) = Some r
    /\ is_upper_bound cmp b q r.
Proof.
  intros Hwf Hs. pose proof (wf_row_num b Hwf) as Hn.
  unfold upper_bound. rewrite upper_bound_loop_as_lower.
  destruct (lower_bound_loop_partition
              (fun i => negb <$> comparator_larger cmp b h q i)
              (fun i => cmp (row_bytes b i) q <=? 0)
              (S (Z.to_nat (row_num b - 0))) 0 (row_num b - 0))
    as (r & Hr & Hb & Ht & Hf).
  - lia.
  - lia.
  - intros i Hi. apply comparator_larger_value; [exact Hwf|lia].
  - intros i j Hi Hij Hj Hpj. apply Z.leb_le in Hpj. apply Z.leb_le.
    apply (cmp_trans _ (row_bytes b j)); [|exact Hpj].
    apply sorted_block_pairwise; [exact Hs|lia|lia|lia].
  - exists r. split; [exact Hr|]. split; [lia|]. split.
    + intros j Hj. apply Z.leb_le. apply Ht. lia.
    + intros j Hj. apply Z.leb_gt. apply Hf. lia.
Qed.

Lemma is_lower_bound_count (b : RowBlock) (q : list byte) (r : Z) :
  is_lower_bound cmp b q r -> count_less cmp b q = r.
Proof.
  intros (Hr & Ht & Hf). unfold count_less, rows.
  apply count_rows_partition; [exact Hr| |].
  - intros i Hi. apply Z.ltb_lt. apply Ht. exact Hi.
  - intros i Hi. apply Z.ltb_ge. apply Hf. exact Hi.
Qed.

Lemma is_upper_bound_count (b : RowBlock) (q : list byte) (r : Z) :
  is_upper_bound cmp b q r -> count_less_equal cmp b q = r.
Proof.
  intros (Hr & Ht & Hf). unfold count_less_equal, rows.
  apply count_rows_partition; [exact Hr| |].
  - intros i Hi. apply Z.leb_le. apply Ht. exact Hi.
  - intros i Hi. apply Z.leb_gt. apply Hf. exact Hi.
Qed.

Lemma find_row_lower (b : RowBlock) (q : list byte) (row_index : Z) :
  wf_block b -> _finalized b = true -> sorted_rows cmp (rows b) = true ->
  find_row cmp b q false row_index
  = Some (OLAP_SUCCESS, count_less cmp b q)
  /\ is_lower_bound cmp b q (count_less cmp b q).
Proof.
  intros Hwf Hfin Hs. unfold find_row. rewrite Hfin.
  destruct (lower_bound_rows b {| _fixed_buf := 0 |} q Hwf Hs) as (r & Hr & Hlb).
  rewrite Hr. simpl. rewrite (is_lower_bound_count b q r Hlb).
  split; [reflexivity|exact Hlb].
Qed.

Lemma find_row_upper (b : RowBlock) (q : list byte) (row_index : Z) :
  wf_block b -> _finalized b = true -> sorted_rows cmp (rows b) = true ->
  find_row cmp b q true row_index
  = Some (OLAP_SUCCESS, count_less_equal cmp b q)
  /\ is_upper_bound cmp b q (count_less_equal cmp b q).
Proof.
  intros Hwf Hfin Hs. unfold find_row. rewrite Hfin.
  destruct (upper_bound_rows b {| _fixed_buf := 0 |} q Hwf Hs) as (r & Hr & Hub).
  rewrite Hr. simpl. rewrite (is_upper_bound_count b q r Hub).
  split; [reflexivity|exact Hub].
Qed.

(** C1: in a well-formed, finalized block whose rows [0, row_count) are
    sorted ascending by the three-way comparison (a comparison that orders
    rows totally, [ThreeWay]), for every probe key [q], whether it lies
    below all rows, above all rows, equals one row or a run of duplicates,
    [find_row (q, false)] succeeds with the number of rows that compare less
    than [q], which is the smallest index whose row is not less than [q];
    [find_row (q, true)] succeeds with the number of rows that compare less
    than or equal to [q], which is the smallest index whose row is strictly
    greater than [q]. *)
Theorem find_row_lower_upper_bound (b : RowBlock) (q : list byte)
  (row_index : Z) :
  wf_block b -> _finalized b = true -> sorted_rows cmp (rows b) = true ->
  find_row cmp b q false row_index
  = Some (OLAP_SUCCESS, count_less cmp b q)
  /\ is_lower_bound cmp b q (count_less cmp b q)
  /\ find_row cmp b q true row_index
     = Some (OLAP_SUCCESS, count_less_equal cmp b q)
  /\ is_upper_bound cmp b q (count_less_equal cmp b q).
Proof.
  intros Hwf Hfin Hs.
  destruct (find_row_lower b q row_index Hwf Hfin Hs) as [Hl Hlb].
  destruct (find_row_upper b q row_index Hwf Hfin Hs) as [Hu Hub].
  repeat split; first [exact Hl | exact Hu | apply Hlb | apply Hub].
Qed.

(** C8: in a well-formed, finalized, sorted block, for every key and either
    search direction, [find_row] returns a success status with an index
    between 0 and the row count, and the index equals the row count exactly
    when no row qualifies (every row is below the key, or for the upper
    bound not above it).  Whatever the block, a failure status comes only
    from a block that is not finalized, and leaves the output index as it
    was. *)
Theorem find_row_not_found_is_success (b : RowBlock) (key : list byte)
  (find_last : bool) (row_index : Z) :
  (wf_block b -> _finalized b = true -> sorted_rows cmp (rows b) = true ->
   exists out,
     find_row cmp b key find_last row_index = Some (OLAP_SUCCESS, out)
     /\ 0 <= out <= row_num b
     /\ (out = row_num b <->
         forall j, 0 <= j < row_num b ->
                   if find_last then cmp (row_bytes b j) key <= 0
                   else cmp (row_bytes b j) key < 0))
  /\ (forall status out,
        find_row cmp b key find_last row_index = Some (status, out) ->
        status = OLAP_FAILURE ->
        _finalized b = false /\ out = row_index).
Proof.
  split.
  - intros Hwf Hfin Hs. destruct find_last.
    + destruct (find_row_upper b key row_index Hwf Hfin Hs)
        as [Hu (Hr & Ht & Hf)].
      eexists. split; [exact Hu|]. split; [exact Hr|]. split.
      * intros Heq j Hj. apply Ht. lia.
      * intros Hall.
        destruct (Z.lt_ge_cases (count_less_equal cmp b key) (row_num b))
          as [Hlt|Hge]; [|lia].
        pose proof (Hf (count_less_equal cmp b key)).
        pose proof (Hall (count_less_equal cmp b key)). lia.
    + destruct (find_row_lower b key row_index Hwf Hfin Hs)
        as [Hl (Hr & Ht & Hf)].
      eexists. split; [exact Hl|]. split; [exact Hr|]. split.
      * intros Heq j Hj. apply Ht. lia.
      * intros Hall.
        destruct (Z.lt_ge_cases (count_less cmp b key) (row_num b))
          as [Hlt|Hge]; [|lia].
        pose proof (Hf (count_less cmp b key)).
        pose proof (Hall (count_less cmp b key)). lia.
  - intros status out Hfr Hst. unfold find_row in Hfr.
    destruct (_finalized b).
    + destruct (if find_last then _ else _) as [r|]; simpl in Hfr;
        [|discriminate].
      injection Hfr as <- <-. discriminate.
    + injection Hfr as <- <-. split; reflexivity.
Qed.

End SearchProofs.

(** ** The sequential cursor *)

Lemma cursor_reachable_invariant (b0 b : RowBlock) :
  cursor_reachable b0 b ->
  cursor_in_bounds b /\ row_num b = row_num b0.
Proof.
  induction 1 as [Hstart|c b Hreach [_ Hrows] Hbounds].
  - split; [exact Hstart|reflexivity].
  - split; [exact Hbounds|]. rewrite <- Hrows. destruct c; reflexivity.
Qed.

(** C4: in every state reached from a block by [pos_inc] and [set_limit]
    calls that keep [0 <= pos <= limit <= row_count], [remaining] is
    [limit - pos] and [has_remaining] is [pos < limit]. *)
Theorem cursor_equations (b0 b : RowBlock) :
  is_uint32 (row_num b0) ->
  cursor_reachable b0 b ->
  remaining b = limit b - pos b
  /\ has_remaining b = (pos b <? limit b)
  /\ (has_remaining b = true <-> pos b < limit b).
Proof.
  intros Hrows Hreach.
  destruct (cursor_reachable_invariant b0 b Hreach) as [[Hpl Hlr] Heq].
  unfold remaining, has_remaining, pos, limit in *.
  split; [|split; [reflexivity|apply Z.ltb_lt]].
  apply wrap_size_t_small. unfold is_size_t, is_uint32 in *.
  unfold UINT32_MODULUS, SIZE_MODULUS in *. lia.
Qed.

Lemma pos_inc_times_state (n : nat) :
  forall b : RowBlock,
    0 <= pos b -> pos b + Z.of_nat n < SIZE_MODULUS ->
    pos (pos_inc_times n b) = pos b + Z.of_nat n
    /\ limit (pos_inc_times n b) = limit b
    /\ row_num (pos_inc_times n b) = row_num b.
Proof.
  induction n as [|n IH]; intros b H0 Hn; simpl.
  - repeat split; lia.
  - assert (Hp : pos (pos_inc b) = pos b + 1).
    { unfold pos, pos_inc. simpl. apply wrap_size_t_small.
      unfold is_size_t, pos in *. lia. }
    destruct (IH (pos_inc b)) as (Hpos & Hlim & Hrow); [lia|lia|].
    rewrite Hpos, Hlim, Hrow, Hp. repeat split; [lia|reflexivity..].
Qed.

(** C3, as the code has it: [pos_inc] is not guarded.  From a state with
    [0 <= pos <= limit], after [n] increments that stay within [size_t],
    [pos] has grown by [n]; [has_remaining] is false from the moment [pos]
    reaches [limit] and stays false; [remaining] is [limit - pos] as long as
    [pos <= limit], and once [pos] has passed [limit] it is the unsigned
    wrap-around [2^64 - (pos - limit)], not 0. *)
Theorem pos_inc_past_limit (b : RowBlock) (n : nat) :
  0 <= pos b <= limit b ->
  is_size_t (limit b) ->
  pos b + Z.of_nat n < SIZE_MODULUS ->
  pos (pos_inc_times n b) = pos b + Z.of_nat n
  /\ limit (pos_inc_times n b) = limit b
  /\ (has_remaining (pos_inc_times n b) = true
      <-> pos b + Z.of_nat n < limit b)
  /\ (limit b <= pos b + Z.of_nat n ->
      has_remaining (pos_inc_times n b) = false)
  /\ (pos b + Z.of_nat n <= limit b ->
      remaining (pos_inc_times n b) = limit b - (pos b + Z.of_nat n))
  /\ (limit b < pos b + Z.of_nat n ->
      remaining (pos_inc_times n b)
      = SIZE_MODULUS - (pos b + Z.of_nat n - limit b)).
Proof.
  intros Hpl Hlim Hn.
  destruct (pos_inc_times_state n b) as (Hpos & Hlimit & _); [lia|lia|].
  split; [exact Hpos|]. split; [exact Hlimit|].
  unfold has_remaining, remaining.
  unfold pos, limit in *. rewrite Hpos, Hlimit.
  unfold is_size_t in Hlim.
  split; [apply Z.ltb_lt|]. split; [intros; apply Z.ltb_ge; lia|].
  split.
  - intros Hle. apply wrap_size_t_small. unfold is_size_t. lia.
  - intros Hgt. unfold wrap_size_t.
    symmetry. apply (Z.mod_unique _ _ (-1)); lia.
Qed.

(** ** Lifecycle *)

Lemma memcpy_frame (b : RowBlock) (dst : Z) (src : list byte) (n : Z)
  (b' : RowBlock) :
  memcpy b dst src n = Some b' ->
  b' = with_mem_data b (_mem_data b')
  /\ length (_mem_data b') = length (_mem_data b).
Proof.
  unfold memcpy. destruct (in_buffer b dst n) eqn:Hin; [|discriminate].
  destruct (Z.leb_spec n (Z.of_nat (length src))) as [Hn|]; [|discriminate].
  simpl. intros [= <-]. split; [reflexivity|]. simpl.
  unfold in_buffer in Hin. rewrite !andb_true_iff, !Z.leb_le in Hin.
  apply splice_length. rewrite length_take. lia.
Qed.

Lemma run_call_row_num (c : ConsumerCall) (b b' : RowBlock) :
  run_call c b = Some b' -> row_num b' = row_num b.
Proof.
  destruct c; simpl; try (intros [= <-]; reflexivity).
  intros H. apply memcpy_frame in H. destruct H as [-> _]. reflexivity.
Qed.

Lemma run_calls_row_num (cs : list ConsumerCall) :
  forall b b' : RowBlock,
    run_calls cs b = Some b' -> row_num b' = row_num b.
Proof.
  induction cs as [|c cs IH]; intros b b'; simpl.
  - intros [= <-]. reflexivity.
  - destruct (run_call c b) as [b1|] eqn:Hc; simpl; [|discriminate].
    intros H. rewrite (IH b1 b' H). exact (run_call_row_num c b b1 Hc).
Qed.

Lemma refill_frame (writes : list (Z * list byte)) :
  forall b b1 : RowBlock,
    refill b writes = Some b1 ->
    b1 = with_mem_data b (_mem_data b1)
    /\ length (_mem_data b1) = length (_mem_data b).
Proof.
  induction writes as [|[i src] writes IH]; intros b b1; simpl.
  - intros [= <-]. destruct b; split; reflexivity.
  - destruct (set_row b i src) as [b'|] eqn:Hset; simpl; [|discriminate].
    intros H. destruct (IH b' b1 H) as [Heq Hlen].
    apply memcpy_frame in Hset. destruct Hset as [Hb' Hlen'].
    split; [|lia]. rewrite Heq, Hb'. reflexivity.
Qed.

Lemma refill_defined (writes : list (Z * list byte)) :
  forall b : RowBlock,
    wf_block b -> Forall (write_in_range b) writes ->
    is_Some (refill b writes).
Proof.
  induction writes as [|[i src] writes IH]; intros b Hwf Hall; simpl.
  - eexists. reflexivity.
  - apply Forall_cons in Hall. destruct Hall as [[Hi Hsrc] Hall].
    simpl in Hi, Hsrc.
    rewrite (set_row_defined b i src Hwf Hi Hsrc). simpl.
    destruct (written_row_fits b i src Hwf Hi Hsrc) as [_ Hfit].
    apply IH.
    + apply wf_with_mem_data; [exact Hwf|].
      apply splice_length. exact Hfit.
    + exact Hall.
Qed.

(** C7: for every [k] with [0 <= k <= capacity], [finalize k] succeeds and
    leaves a block whose row count is [k], whose [pos] is 0 and whose
    [limit] is [k], buffer and layout untouched; the row count stays [k]
    under every later [set_row], [set_pos], [pos_inc], [set_limit] and
    [set_block_status] call, so that within a fill cycle [finalize] is the
    one place it is set. *)
Theorem finalize_fixes_row_count (b : RowBlock) (k : Z) :
  0 <= k <= _capacity b ->
  exists b',
    finalize b k = (OLAP_SUCCESS, b')
    /\ row_num b' = k /\ pos b' = 0 /\ limit b' = k
    /\ _finalized b' = true
    /\ same_allocation b b'
    /\ _mem_data b' = _mem_data b
    /\ (forall cs b'', run_calls cs b' = Some b'' -> row_num b'' = k).
Proof.
  intros Hk. unfold finalize.
  destruct (Z.leb_spec k (_capacity b)) as [_|]; [|lia].
  eexists. split; [reflexivity|].
  repeat split.
  intros cs b'' Hrun. apply run_calls_row_num in Hrun. exact Hrun.
Qed.

(** C6: [clear] puts [pos] and [limit] at 0 and row count and status at
    their empty values, and keeps the buffer, its bytes, its size and the
    layout.  Whatever the block held before, after [clear] every fill of
    in-range writes is defined, and a fill followed by [finalize k] with
    [0 <= k <= capacity] gives row count [k], [pos] 0 and [limit] [k]. *)
Theorem clear_resets_for_reuse (DEL_PARTIAL_SATISFIED : Z) (b : RowBlock) :
  empty_but_allocated DEL_PARTIAL_SATISFIED (clear DEL_PARTIAL_SATISFIED b)
  /\ same_allocation b (clear DEL_PARTIAL_SATISFIED b)
  /\ _mem_data (clear DEL_PARTIAL_SATISFIED b) = _mem_data b
  /\ (wf_block b ->
      forall writes,
        Forall (write_in_range b) writes ->
        is_Some (refill (clear DEL_PARTIAL_SATISFIED b) writes))
  /\ (forall writes b1 k,
        refill (clear DEL_PARTIAL_SATISFIED b) writes = Some b1 ->
        0 <= k <= _capacity b ->
        exists b2,
          finalize b1 k = (OLAP_SUCCESS, b2)
          /\ row_num b2 = k /\ pos b2 = 0 /\ limit b2 = k).
Proof.
  split; [repeat split|]. split; [repeat split|]. split; [reflexivity|].
  split.
  - intros Hwf writes Hall. apply refill_defined; [|exact Hall].
    destruct Hwf as [H1 H2 H3 H4 H5 H6].
    constructor; simpl; try assumption.
    unfold row_num. simpl. unfold is_uint32 in H1. lia.
  - intros writes b1 k Hfill Hk.
    apply refill_frame in Hfill. destruct Hfill as [Hb1 _].
    unfold finalize. rewrite Hb1. simpl.
    destruct (Z.leb_spec k (_capacity b)) as [_|]; [|lia].
    eexists. split; [reflexivity|]. repeat split.
Qed.

(** ** Read accessors *)

(** C10: every read accessor (get_row, field_ptr, row_num, capacity, pos,
    limit, remaining, has_remaining, block_status) leaves the block as it
    was, buffer bytes, pos, limit, row count and status included; [get_row]
    changes the caller's cursor only, attaching it to the row's address, and
    the other accessors change nothing at all. *)
Theorem read_accessors_preserve_block (a : Accessor) (st : Caller) :
  the_block (snd (call_accessor a st)) = the_block st
  /\ (forall i, a = acc_get_row i ->
        the_cursor (snd (call_accessor a st))
        = attach (the_cursor st) (row_address (the_block st) i))
  /\ ((forall i, a <> acc_get_row i) -> snd (call_accessor a st) = st).
Proof.
  destruct a; simpl; (split; [reflexivity|]); split;
    try (intros i Hi; discriminate Hi); try reflexivity.
  - intros i [= <-]. reflexivity.
  - intros Hne. exfalso. apply (Hne row_index). reflexivity.
Qed.

(** * The concrete block *)

Example scenario_layout :
  compute_layout scenario_schema true
  = Some (22, [ {| column_id := 0; offset := 0; has_null_byte := true;
                   width := 4 |};
                {| column_id := 1; offset := 5; has_null_byte := true;
                   width := 16 |} ]).
Proof. reflexivity. Qed.

Example scenario_find_20_first :
  find_row cmp_int_key scenario_block (scenario_row x14) false 0
  = Some (OLAP_SUCCESS, 1).
Proof. vm_compute. reflexivity. Qed.

Example scenario_find_20_last :
  find_row cmp_int_key scenario_block (scenario_row x14) true 0
  = Some (OLAP_SUCCESS, 3).
Proof. vm_compute. reflexivity. Qed.

Example scenario_find_5 :
  find_row cmp_int_key scenario_block (scenario_row x05) false 0
  = Some (OLAP_SUCCESS, 0).
Proof. vm_compute. reflexivity. Qed.

Example scenario_find_99 :
  find_row cmp_int_key scenario_block (scenario_row x63) false 0
  = Some (OLAP_SUCCESS, 4).
Proof. vm_compute. reflexivity. Qed.

Example scenario_find_30_single :
  find_row cmp_int_key scenario_block (scenario_row x1e) false 0
  = Some (OLAP_SUCCESS, 3)
  /\ find_row cmp_int_key scenario_block (scenario_row x1e) true 0
     = Some (OLAP_SUCCESS, 4).
Proof. split; vm_compute; reflexivity. Qed.

Example scenario_limit_2_remaining :
  remaining (set_limit scenario_block 2) = 2
  /\ has_remaining (pos_inc (set_limit scenario_block 2)) = true
  /\ has_remaining (pos_inc_times 2 (set_limit scenario_block 2)) = false
  /\ has_remaining (pos_inc_times 4 (set_limit scenario_block 2)) = false.
Proof. repeat split. Qed.

(** [set_row] is a [const] member as well, and it does change the block. *)
Example scenario_set_row_changes_block :
  set_row scenario_block 0 (scenario_row x63) <> Some scenario_block.
Proof. vm_compute. discriminate. Qed.

(** C3, as stated, fails: with limit 2 and four [pos_inc] calls,
    [has_remaining] is false but [remaining] is [2^64 - 2], which is -2 as a
    signed count.  And [pos] itself wraps: at [pos = limit = 2^64 - 1] one
    more [pos_inc] makes [has_remaining] true again. *)
Lemma pos_inc_past_limit_remaining_unsound :
  has_remaining (pos_inc_times 4 (set_limit scenario_block 2)) = false
  /\ remaining (pos_inc_times 4 (set_limit scenario_block 2))
     = 18446744073709551614
  /\ as_signed64 (remaining (pos_inc_times 4 (set_limit scenario_block 2)))
     = -2
  /\ ~ remaining_is_sound (pos_inc_times 4 (set_limit scenario_block 2))
  /\ has_remaining (set_pos (set_limit scenario_block (SIZE_MODULUS - 1))
                             (SIZE_MODULUS - 1)) = false
  /\ has_remaining
       (pos_inc (set_pos (set_limit scenario_block (SIZE_MODULUS - 1))
                         (SIZE_MODULUS - 1))) = true.
Proof.
  split; [reflexivity|]. split; [reflexivity|]. split; [reflexivity|].
  split; [|split; reflexivity].
  intros [Hneg _]. vm_compute in Hneg. apply Hneg. reflexivity.
Qed.

(** * Instances at the concrete block *)

Lemma find_row_lower_upper_bound_witness :
  find_row cmp_int_key scenario_block (scenario_row x14) false 0
  = Some (OLAP_SUCCESS,
          count_less cmp_int_key scenario_block (scenario_row x14))
  /\ is_lower_bound cmp_int_key scenario_block (scenario_row x14)
       (count_less cmp_int_key scenario_block (scenario_row x14))
  /\ find_row cmp_int_key scenario_block (scenario_row x14) true 0
     = Some (OLAP_SUCCESS,
             count_less_equal cmp_int_key scenario_block (scenario_row x14))
  /\ is_upper_bound cmp_int_key scenario_block (scenario_row x14)
       (count_less_equal cmp_int_key scenario_block (scenario_row x14)).
Proof.
  apply (@find_row_lower_upper_bound cmp_int_key).
  - constructor; unfold cmp_int_key; intros; lia.
  - constructor; by_evaluation.
  - reflexivity.
  - vm_compute. reflexivity.
Defined.

Lemma set_row_get_row_round_trip_witness :
  exists b',
    set_row scenario_block 1 (scenario_row x63) = Some b'
    /\ b' = with_mem_data scenario_block (_mem_data b')
    /\ length (_mem_data b') = length (_mem_data scenario_block)
    /\ (forall cursor,
          _fixed_buf (get_row b' 1 cursor)
          = _mem_buf b' + 1 * _mem_row_bytes b')
    /\ (forall cursor,
          cursor_row b' (get_row b' 1 cursor)
          = Some (take (Z.to_nat (_mem_row_bytes scenario_block))
                       (scenario_row x63)))
    /\ (forall cursor off n,
          0 <= off -> 0 <= n -> off + n <= _mem_row_bytes scenario_block ->
          load b' (_fixed_buf (get_row b' 1 cursor) + off) n
          = Some (slice (scenario_row x63) off n))
    /\ (forall cursor entries (col : nat) e,
          layout_computed scenario_block entries -> entries !! col = Some e ->
          read_field b' (get_row b' 1 cursor) e
          = Some (slice (scenario_row x63) (offset e) (entry_size e)))
    /\ (forall j cursor,
          0 <= j < _capacity scenario_block -> j <> 1 ->
          row_bytes b' j = row_bytes scenario_block j
          /\ cursor_row b' (get_row b' j cursor)
             = cursor_row scenario_block (get_row scenario_block j cursor)).
Proof.
  apply (set_row_get_row_round_trip scenario_block 1 (scenario_row x63)).
  - constructor; by_evaluation.
  - by_evaluation.
  - by_evaluation.
Defined.

Lemma pos_inc_past_limit_witness :
  pos (pos_inc_times 4 (set_limit scenario_block 2))
  = pos (set_limit scenario_block 2) + Z.of_nat 4
  /\ limit (pos_inc_times 4 (set_limit scenario_block 2))
     = limit (set_limit scenario_block 2)
  /\ (has_remaining (pos_inc_times 4 (set_limit scenario_block 2)) = true
      <-> pos (set_limit scenario_block 2) + Z.of_nat 4
          < limit (set_limit scenario_block 2))
  /\ (limit (set_limit scenario_block 2)
      <= pos (set_limit scenario_block 2) + Z.of_nat 4 ->
      has_remaining (pos_inc_times 4 (set_limit scenario_block 2)) = false)
  /\ (pos (set_limit scenario_block 2) + Z.of_nat 4
      <= limit (set_limit scenario_block 2) ->
      remaining (pos_inc_times 4 (set_limit scenario_block 2))
      = limit (set_limit scenario_block 2)
        - (pos (set_limit scenario_block 2) + Z.of_nat 4))
  /\ (limit (set_limit scenario_block 2)
      < pos (set_limit scenario_block 2) + Z.of_nat 4 ->
      remaining (pos_inc_times 4 (set_limit scenario_block 2))
      = SIZE_MODULUS
        - (pos (set_limit scenario_block 2) + Z.of_nat 4
           - limit (set_limit scenario_block 2))).
Proof.
  apply (pos_inc_past_limit (set_limit scenario_block 2) 4).
  - by_evaluation.
  - by_evaluation.
  - by_evaluation.
Defined.

Lemma cursor_equations_witness :
  remaining (pos_inc (set_limit scenario_block 2))
  = limit (pos_inc (set_limit scenario_block 2))
    - pos (pos_inc (set_limit scenario_block 2))
  /\ has_remaining (pos_inc (set_limit scenario_block 2))
     = (pos (pos_inc (set_limit scenario_block 2))
        <? limit (pos_inc (set_limit scenario_block 2)))
  /\ (has_remaining (pos_inc (set_limit scenario_block 2)) = true
      <-> pos (pos_inc (set_limit scenario_block 2))
          < limit (pos_inc (set_limit scenario_block 2))).
Proof.
  apply (cursor_equations scenario_block).
  - by_evaluation.
  - apply (reach_step scenario_block cursor_pos_inc).
    + apply (reach_step scenario_block (cursor_set_limit 2)).
      * apply reach_start. by_evaluation.
      * by_evaluation.
    + by_evaluation.
Defined.

Lemma compute_layout_correct_witness :
  (exists entries,
     compute_layout scenario_schema true
     = Some (sum_field_sizes true scenario_schema, entries)
     /\ length entries = length scenario_schema
     /\ strictly_increasing (offset <$> entries)
     /\ (forall e, entries !! 0%nat = Some e -> offset e = 0)
     /\ (forall (k : nat) (e : FieldLayoutEntry),
           entries !! k = Some e ->
           exists c, scenario_schema !! k = Some c
             /\ column_id e = Z.of_nat k
             /\ has_null_byte e = true
             /\ width e = value_width c
             /\ offset e = sum_field_sizes true (take k scenario_schema)
             /\ value_offset e = offset e + 1
             /\ value_offset e + width e
                = sum_field_sizes true (take (S k) scenario_schema)))
  /\ compute_layout
       [ {| value_width := 4; is_nullable := false |};
         {| value_width := 0; is_nullable := false |} ] true
     = None.
Proof.
  split.
  - apply (proj1 (compute_layout_correct scenario_schema true)).
    repeat (constructor; [reflexivity|]). constructor.
  - apply (proj2 (compute_layout_correct _ true)).
    apply Exists_cons_tl, Exists_cons_hd. by_evaluation.
Defined.

Lemma clear_resets_for_reuse_witness :
  is_Some (refill (clear 2 scenario_block) scenario_writes)
  /\ exists b2,
       finalize
         (default scenario_empty
            (refill (clear 2 scenario_block) scenario_writes)) 3
       = (OLAP_SUCCESS, b2)
       /\ row_num b2 = 3 /\ pos b2 = 0 /\ limit b2 = 3.
Proof.
  destruct (clear_resets_for_reuse 2 scenario_block)
    as (_ & _ & _ & Hfill & Hcycle).
  split.
  - apply Hfill.
    + constructor; by_evaluation.
    + repeat (constructor; [by_evaluation|]). constructor.
  - apply (Hcycle scenario_writes _ 3).
    + vm_compute. reflexivity.
    + by_evaluation.
Defined.

Lemma finalize_fixes_row_count_witness :
  exists b',
    finalize scenario_empty 3 = (OLAP_SUCCESS, b')
    /\ row_num b' = 3 /\ pos b' = 0 /\ limit b' = 3
    /\ _finalized b' = true
    /\ same_allocation scenario_empty b'
    /\ _mem_data b' = _mem_data scenario_empty
    /\ (forall cs b'', run_calls cs b' = Some b'' -> row_num b'' = 3).
Proof.
  apply (finalize_fixes_row_count scenario_empty 3). by_evaluation.
Defined.

Lemma find_row_not_found_is_success_witness :
  (exists out,
     find_row cmp_int_key scenario_block (scenario_row x63) false 0
     = Some (OLAP_SUCCESS, out)
     /\ 0 <= out <= row_num scenario_block
     /\ (out = row_num scenario_block <->
         forall j, 0 <= j < row_num scenario_block ->
                   cmp_int_key (row_bytes scenario_block j) (scenario_row x63)
                   < 0))
  /\ _finalized scenario_empty = false /\ 7 = 7.
Proof.
  assert (Htotal : ThreeWay cmp_int_key)
    by (constructor; unfold cmp_int_key; intros; lia).
  split.
  - apply (proj1 (@find_row_not_found_is_success cmp_int_key Htotal
                    scenario_block (scenario_row x63) false 0)).
    + constructor; by_evaluation.
    + reflexivity.
    + vm_compute. reflexivity.
  - apply (proj2 (@find_row_not_found_is_success cmp_int_key Htotal
                    scenario_empty (scenario_row x63) false 7)
             OLAP_FAILURE 7); reflexivity.
Defined.

Lemma field_ptr_address_witness :
  field_ptr scenario_block 2 1 = Some 4145
  /\ load scenario_block 4145 17
     = Some (slice (scenario_row x14) 5 17).
Proof.
  destruct (field_ptr_address scenario_block
              [ {| column_id := 0; offset := 0; has_null_byte := true;
                   width := 4 |};
                {| column_id := 1; offset := 5; has_null_byte := true;
                   width := 16 |} ] 2 1)
    as (e & He & Hptr & _).
  - constructor; by_evaluation.
  - split; reflexivity.
  - by_evaluation.
  - by_evaluation.
  - injection He as <-. split; [exact Hptr|].
    vm_compute. reflexivity.
Defined.

(** * More about the inline members *)

(** ** [set_row] against [set_row] *)

Lemma splice_splice_same (d : list byte) (off : Z) (s1 s2 : list byte) :
  length s1 = length s2 ->
  (Z.to_nat off + length s1 <= length d)%nat ->
  splice (splice d off s1) off s2 = splice d off s2.
Proof.
  intros Hlen Hfit. apply list_eq. intros k.
  rewrite (splice_lookup (splice d off s1)) by (rewrite splice_length; lia).
  rewrite !splice_lookup by lia.
  repeat case_decide; try reflexivity; lia.
Qed.

Lemma splice_splice_comm (d : list byte) (o1 o2 : Z) (s1 s2 : list byte) :
  (Z.to_nat o1 + length s1 <= length d)%nat ->
  (Z.to_nat o2 + length s2 <= length d)%nat ->
  (Z.to_nat o1 + length s1 <= Z.to_nat o2
   \/ Z.to_nat o2 + length s2 <= Z.to_nat o1)%nat ->
  splice (splice d o1 s1) o2 s2 = splice (splice d o2 s2) o1 s1.
Proof.
  intros H1 H2 Hdis. apply list_eq. intros k.
  rewrite (splice_lookup (splice d o1 s1)) by (rewrite splice_length; lia).
  rewrite (splice_lookup (splice d o2 s2)) by (rewrite splice_length; lia).
  rewrite !splice_lookup by lia.
  repeat case_decide; try reflexivity; lia.
Qed.

Lemma splice_own_slice (d : list byte) (off n : Z) :
  0 <= off -> 0 <= n ->
  (Z.to_nat off + Z.to_nat n <= length d)%nat ->
  splice d off (slice d off n) = d.
Proof.
  intros Hoff Hn Hfit.
  assert (Hlen : length (slice d off n) = Z.to_nat n).
  { unfold slice. rewrite length_take, length_drop. lia. }
  apply list_eq. intros k. rewrite splice_lookup by lia. rewrite Hlen.
  case_decide; [reflexivity|]. case_decide; [|reflexivity].
  rewrite slice_lookup. rewrite decide_True by lia. f_equal. lia.
Qed.

Lemma with_mem_data_same (b : RowBlock) : with_mem_data b (_mem_data b) = b.
Proof. destruct b. reflexivity. Qed.

Lemma row_bytes_length (b : RowBlock) (i : Z) :
  wf_block b -> 0 <= i < _capacity b ->
  length (row_bytes b i) = Z.to_nat (_mem_row_bytes b).
Proof.
  intros Hwf Hi. destruct (row_offset_bounds b i Hwf Hi) as [H0 H1].
  pose proof (wf_data b Hwf). pose proof (wf_row_bytes b Hwf).
  unfold row_bytes, slice. rewrite length_take, length_drop. lia.
Qed.

(** X1: two [set_row] calls on the same slot leave what the second one
    alone would leave: the last write wins. *)
Theorem set_row_last_write_wins (b : RowBlock) (index : Z)
  (first second : list byte) :
  wf_block b ->
  0 <= index < _capacity b ->
  _mem_row_bytes b <= Z.of_nat (length first) ->
  _mem_row_bytes b <= Z.of_nat (length second) ->
  is_Some (set_row b index second)
  /\ (b1 ← set_row b index first; set_row b1 index second)
     = set_row b index second.
Proof.
  intros Hwf Hi H1 H2.
  destruct (written_row_fits b index first Hwf Hi H1) as [Hl1 Hf1].
  destruct (written_row_fits b index second Hwf Hi H2) as [Hl2 Hf2].
  rewrite (set_row_defined b index first Hwf Hi H1).
  rewrite (set_row_defined b index second Hwf Hi H2).
  split; [eexists; reflexivity|]. simpl.
  rewrite set_row_defined;
    [|apply wf_with_mem_data; [exact Hwf|apply splice_length; exact Hf1]
     |exact Hi|exact H2].
  simpl. do 2 f_equal. apply splice_splice_same; [lia|exact Hf1].
Qed.

(** X2: [set_row] calls on two different slots commute. *)
Theorem set_row_distinct_slots_commute (b : RowBlock) (i j : Z)
  (si sj : list byte) :
  wf_block b ->
  0 <= i < _capacity b -> 0 <= j < _capacity b -> i <> j ->
  _mem_row_bytes b <= Z.of_nat (length si) ->
  _mem_row_bytes b <= Z.of_nat (length sj) ->
  (b1 ← set_row b i si; set_row b1 j sj)
  = (b1 ← set_row b j sj; set_row b1 i si).
Proof.
  intros Hwf Hi Hj Hne Hsi Hsj.
  destruct (written_row_fits b i si Hwf Hi Hsi) as [Hli Hfi].
  destruct (written_row_fits b j sj Hwf Hj Hsj) as [Hlj Hfj].
  destruct (row_offset_bounds b i Hwf Hi) as [Hi0 _].
  destruct (row_offset_bounds b j Hwf Hj) as [Hj0 _].
  pose proof (wf_row_bytes b Hwf) as Hrb.
  rewrite (set_row_defined b i si Hwf Hi Hsi).
  rewrite (set_row_defined b j sj Hwf Hj Hsj). simpl.
  rewrite !set_row_defined;
    try (apply wf_with_mem_data; [exact Hwf|apply splice_length; assumption]);
    try assumption.
  simpl. do 2 f_equal. apply splice_splice_comm; [exact Hfi|exact Hfj|].
  rewrite Hli, Hlj.
  destruct (Z.lt_ge_cases i j); [left|right]; nia.
Qed.

(** X3: writing back into a slot the row a cursor reads from it leaves the
    block exactly as it was. *)
Theorem set_row_of_read_row_is_identity (b : RowBlock) (index : Z)
  (cursor : RowCursor) (row : list byte) :
  wf_block b ->
  0 <= index < _capacity b ->
  cursor_row b (get_row b index cursor) = Some row ->
  set_row b index row = Some b.
Proof.
  intros Hwf Hi Hread.
  rewrite (cursor_row_get_row b index cursor Hwf Hi) in Hread.
  injection Hread as <-.
  pose proof (row_bytes_length b index Hwf Hi) as Hlen.
  destruct (row_offset_bounds b index Hwf Hi) as [H0 H1].
  pose proof (wf_data b Hwf) as Hd. pose proof (wf_row_bytes b Hwf) as Hrb.
  rewrite set_row_defined; [|exact Hwf|exact Hi|lia].
  f_equal. rewrite take_ge by lia.
  unfold row_bytes. rewrite splice_own_slice by lia.
  apply with_mem_data_same.
Qed.

(** ** Fills *)

Lemma set_row_explicit_round_trip (b : RowBlock) (i : Z) (src : list byte) :
  wf_block b -> 0 <= i < _capacity b ->
  _mem_row_bytes b <= Z.of_nat (length src) ->
  let d' := splice (_mem_data b) (i * _mem_row_bytes b)
                   (take (Z.to_nat (_mem_row_bytes b)) src) in
  set_row b i src = Some (with_mem_data b d')
  /\ wf_block (with_mem_data b d')
  /\ row_bytes (with_mem_data b d') i
     = take (Z.to_nat (_mem_row_bytes b)) src
  /\ (forall j, 0 <= j < _capacity b -> j <> i ->
        row_bytes (with_mem_data b d') j = row_bytes b j).
Proof.
  intros Hwf Hi Hsrc d'.
  destruct (set_row_round_trip_below_capacity b i src Hwf Hi Hsrc)
    as (b' & Hset & _ & Hlen & _ & Hrow & _ & _ & Hother).
  rewrite (set_row_defined b i src Hwf Hi Hsrc) in Hset.
  injection Hset as <-. fold d' in Hlen, Hrow, Hother.
  assert (Hwf' : wf_block (with_mem_data b d'))
    by (apply wf_with_mem_data; assumption).
  split; [apply set_row_defined; assumption|]. split; [exact Hwf'|].
  split.
  - specialize (Hrow {| _fixed_buf := 0 |}).
    rewrite (cursor_row_get_row _ i _ Hwf' Hi) in Hrow.
    injection Hrow as Hrow. exact Hrow.
  - intros j Hj Hne. apply (Hother j {| _fixed_buf := 0 |} Hj Hne).
Qed.

Lemma refill_rows (writes : list (Z * list byte)) :
  forall b : RowBlock,
    wf_block b -> Forall (write_in_range b) writes -> NoDup writes.*1 ->
    exists b1,
      refill b writes = Some b1
      /\ wf_block b1
      /\ b1 = with_mem_data b (_mem_data b1)
      /\ (forall i src, (i, src) ∈ writes ->
            row_bytes b1 i = take (Z.to_nat (_mem_row_bytes b)) src)
      /\ (forall j, 0 <= j < _capacity b -> j ∉ writes.*1 ->
            row_bytes b1 j = row_bytes b j).
Proof.
  induction writes as [|[i src] writes IH]; intros b Hwf Hall Hnd.
  - exists b. split; [reflexivity|]. split; [exact Hwf|].
    split; [symmetry; apply with_mem_data_same|]. split.
    + intros i src Hin. apply elem_of_nil in Hin. destruct Hin.
    + reflexivity.
  - apply Forall_cons in Hall. destruct Hall as [[Hi Hsrc] Hall].
    simpl in Hi, Hsrc. rewrite fmap_cons in Hnd. simpl in Hnd.
    apply NoDup_cons in Hnd. destruct Hnd as [Hfresh Hnd].
    destruct (set_row_explicit_round_trip b i src Hwf Hi Hsrc)
      as (Hset & Hwf' & Hrow & Hother).
    set (b' := with_mem_data b _) in *.
    destruct (IH b' Hwf' Hall Hnd) as (b1 & Hfill & Hwf1 & Hb1 & Hin & Hout).
    exists b1. simpl. rewrite Hset. simpl.
    split; [exact Hfill|]. split; [exact Hwf1|].
    split; [rewrite Hb1 at 1; reflexivity|]. split.
    + intros i0 src0 Hmem. apply elem_of_cons in Hmem.
      destruct Hmem as [[= -> ->]|Hmem].
      * rewrite (Hout i Hi Hfresh). exact Hrow.
      * apply (Hin i0 src0 Hmem).
    + intros j Hj Hnot. simpl in Hnot.
      apply not_elem_of_cons in Hnot. destruct Hnot as [Hne Hnot].
      rewrite (Hout j Hj Hnot). apply (Hother j Hj Hne).
Qed.

(** X4: a fill of in-range writes to pairwise different slots is defined,
    and afterwards a cursor attached by [get_row] to a written slot reads the
    first [row_stride] bytes of that slot's source, while every slot not
    written reads what it read before the fill. *)
Theorem refill_read_back (b : RowBlock) (writes : list (Z * list byte)) :
  wf_block b ->
  Forall (write_in_range b) writes ->
  NoDup writes.*1 ->
  exists b1,
    refill b writes = Some b1
    /\ (forall i src cursor,
          (i, src) ∈ writes ->
          cursor_row b1 (get_row b1 i cursor)
          = Some (take (Z.to_nat (_mem_row_bytes b)) src))
    /\ (forall j cursor,
          0 <= j < _capacity b -> j ∉ writes.*1 ->
          cursor_row b1 (get_row b1 j cursor)
          = cursor_row b (get_row b j cursor)).
Proof.
  intros Hwf Hall Hnd.
  destruct (refill_rows writes b Hwf Hall Hnd)
    as (b1 & Hfill & Hwf1 & Hb1 & Hin & Hout).
  assert (Hcap : _capacity b1 = _capacity b) by (rewrite Hb1; reflexivity).
  exists b1. split; [exact Hfill|]. split.
  - intros i src cursor Hmem.
    assert (Hi : 0 <= i < _capacity b).
    { rewrite Forall_forall in Hall. apply (Hall (i, src) Hmem). }
    rewrite cursor_row_get_row; [|exact Hwf1|lia].
    f_equal. apply (Hin i src Hmem).
  - intros j cursor Hj Hnot.
    rewrite cursor_row_get_row; [|exact Hwf1|lia].
    rewrite cursor_row_get_row; [|exact Hwf|lia].
    f_equal. apply (Hout j Hj Hnot).
Qed.

Lemma refill_permutation (ws ws' : list (Z * list byte)) :
  ws ≡ₚ ws' ->
  forall b : RowBlock,
    wf_block b -> Forall (write_in_range b) ws -> NoDup ws.*1 ->
    refill b ws = refill b ws'.
Proof.
  induction 1 as [|[i src] l l' Hperm IH|[j sj] [i si] l|l1 l2 l3 H12 IH12 H23 IH23];
    intros b Hwf Hall Hnd.
  - reflexivity.
  - apply Forall_cons in Hall. destruct Hall as [[Hi Hsrc] Hall].
    simpl in Hi, Hsrc. rewrite fmap_cons in Hnd.
    apply NoDup_cons in Hnd. destruct Hnd as [_ Hnd].
    destruct (set_row_explicit_round_trip b i src Hwf Hi Hsrc)
      as (Hset & Hwf' & _).
    simpl. rewrite Hset. simpl. apply IH; assumption.
  - apply Forall_cons in Hall. destruct Hall as [[Hi Hsi] Hall].
    apply Forall_cons in Hall. destruct Hall as [[Hj Hsj] Hall].
    simpl in Hi, Hsi, Hj, Hsj. rewrite !fmap_cons in Hnd. simpl in Hnd.
    apply NoDup_cons in Hnd. destruct Hnd as [Hne _].
    apply not_elem_of_cons in Hne. destruct Hne as [Hne _].
    destruct (written_row_fits b i si Hwf Hi Hsi) as [Hli Hfi].
    destruct (written_row_fits b j sj Hwf Hj Hsj) as [Hlj Hfj].
    destruct (row_offset_bounds b i Hwf Hi) as [Hi0 _].
    destruct (row_offset_bounds b j Hwf Hj) as [Hj0 _].
    pose proof (wf_row_bytes b Hwf) as Hrb.
    simpl.
    rewrite (set_row_defined b i si Hwf Hi Hsi).
    rewrite (set_row_defined b j sj Hwf Hj Hsj). simpl.
    rewrite !set_row_defined;
      try (apply wf_with_mem_data; [exact Hwf|apply splice_length; assumption]);
      try assumption.
    simpl. do 2 f_equal. apply splice_splice_comm; [exact Hfi|exact Hfj|].
    rewrite Hli, Hlj.
    destruct (Z.lt_ge_cases i j); [left|right]; nia.
  - rewrite (IH12 b Hwf Hall Hnd). apply IH23; [exact Hwf| |].
    + rewrite <- H12. exact Hall.
    + rewrite <- H12. exact Hnd.
Qed.

(** X5: the order of the [set_row] calls of a fill does not matter: two
    fills that make the same in-range writes to pairwise different slots, in
    any two orders, leave the same block. *)
Theorem refill_order_independent (b : RowBlock)
  (ws ws' : list (Z * list byte)) :
  wf_block b ->
  Forall (write_in_range b) ws ->
  NoDup ws.*1 ->
  ws ≡ₚ ws' ->
  is_Some (refill b ws) /\ refill b ws = refill b ws'.
Proof.
  intros Hwf Hall Hnd Hperm. split.
  - apply refill_defined; assumption.
  - apply refill_permutation; assumption.
Qed.

(** ** Row and field addresses *)

(** X6: the rows [get_row] attaches to lie inside the buffer and do not
    overlap: for [i < j] below the capacity, row [i] starts at or after the
    buffer base, ends where row [j] starts or earlier, and row [j] ends
    within the [_mem_buf_bytes] bytes of the buffer. *)
Theorem rows_inside_buffer_and_disjoint (b : RowBlock) (i j : Z)
  (ci cj : RowCursor) :
  wf_block b ->
  0 <= i -> i < j -> j < _capacity b ->
  _mem_buf b <= _fixed_buf (get_row b i ci)
  /\ _fixed_buf (get_row b i ci) + _mem_row_bytes b
     <= _fixed_buf (get_row b j cj)
  /\ _fixed_buf (get_row b j cj) + _mem_row_bytes b
     <= _mem_buf b + _mem_buf_bytes b.
Proof.
  intros Hwf Hi Hij Hj. unfold get_row, attach. simpl.
  rewrite (row_address_exact b i Hwf) by lia.
  rewrite (row_address_exact b j Hwf) by lia.
  destruct (row_offset_bounds b i Hwf) as [Hi0 Hi1]; [lia|].
  destruct (row_offset_bounds b j Hwf) as [Hj0 Hj1]; [lia|].
  pose proof (wf_row_bytes b Hwf). repeat split; nia.
Qed.

(** X7: [field_ptr] and [get_row] agree: for a row below the capacity and a
    column of the offset table, [field_ptr (row, col)] is the address
    [get_row (row)] attaches a cursor to plus the column's offset, and the
    pointer to the same column of the next row is [_mem_row_bytes] further. *)
Theorem field_ptr_agrees_with_get_row (b : RowBlock) (row col off : Z)
  (cursor : RowCursor) :
  wf_block b ->
  0 <= row < _capacity b ->
  _field_offset_in_memory b !! Z.to_nat col = Some off ->
  field_ptr b row col = Some (_fixed_buf (get_row b row cursor) + off)
  /\ (row + 1 < _capacity b ->
      field_ptr b (row + 1) col
      = Some (_fixed_buf (get_row b row cursor) + off + _mem_row_bytes b)).
Proof.
  intros Hwf Hrow Hoff. unfold field_ptr, get_row, attach. simpl.
  rewrite Hoff. simpl.
  pose proof (row_address_exact b row Hwf Hrow) as Ha.
  unfold row_address in *. rewrite !(Z.mul_comm (_mem_row_bytes b)).
  rewrite Ha. split; [reflexivity|].
  intros Hnext.
  pose proof (row_address_exact b (row + 1) Hwf) as Hb.
  unfold row_address in Hb. rewrite Hb by lia. f_equal. lia.
Qed.

(** X8: neither [get_row] nor [set_row] checks the index.  With rows of
    positive size, an index at or above the capacity addresses bytes at or
    past the end of the buffer: reading the row through the cursor and
    copying into the slot are both undefined. *)
Theorem row_access_is_not_bounds_checked (b : RowBlock) (index : Z)
  (source : list byte) (cursor : RowCursor) :
  wf_block b ->
  is_uint32 index ->
  _capacity b <= index ->
  0 < _mem_row_bytes b < UINT32_MODULUS ->
  _mem_buf b + _mem_buf_bytes b <= _fixed_buf (get_row b index cursor)
  /\ cursor_row b (get_row b index cursor) = None
  /\ set_row b index source = None.
Proof.
  intros Hwf Hidx Hcap Hstride.
  pose proof (wf_buf_bytes b Hwf) as Hbb. pose proof (wf_data b Hwf) as Hd.
  pose proof (wf_capacity b Hwf) as Hc.
  unfold is_uint32, UINT32_MODULUS in *.
  assert (Haddr : row_address b index = _mem_buf b + index * _mem_row_bytes b).
  { unfold row_address. rewrite wrap_size_t_small; [reflexivity|].
    unfold is_size_t, SIZE_MODULUS. split; nia. }
  assert (Hout : in_buffer b (row_address b index) (_mem_row_bytes b) = false).
  { unfold in_buffer. rewrite Haddr, Hd, Hbb.
    apply andb_false_iff. right. apply Z.leb_gt. nia. }
  split; [|split].
  - unfold get_row, attach. simpl. rewrite Haddr, Hbb. nia.
  - unfold cursor_row, get_row, attach, load. simpl. rewrite Hout.
    reflexivity.
  - unfold set_row, memcpy. rewrite Hout. reflexivity.
Qed.

(** ** The sequential cursor, without assuming [pos <= limit] *)

(** X9: whatever [pos] and [limit] are, [pos + remaining] is [limit] in
    [size_t] arithmetic; [remaining] is 0 exactly when [pos = limit]; and
    when [has_remaining] holds, [remaining] is the positive difference
    [limit - pos]. *)
Theorem pos_plus_remaining_is_limit (b : RowBlock) :
  is_size_t (pos b) ->
  is_size_t (limit b) ->
  wrap_size_t (pos b + remaining b) = limit b
  /\ is_size_t (remaining b)
  /\ (remaining b = 0 <-> pos b = limit b)
  /\ (has_remaining b = true ->
      remaining b = limit b - pos b /\ 0 < remaining b).
Proof.
  unfold is_size_t, remaining, has_remaining, pos, limit, wrap_size_t,
    SIZE_MODULUS.
  intros Hp Hl.
  assert (HM : 0 < 2 ^ 64) by lia.
  split; [|split; [|split]].
  - rewrite Z.add_mod_idemp_r by lia.
    replace (_pos b + (_limit b - _pos b)) with (_limit b) by lia.
    apply Z.mod_small. exact Hl.
  - apply Z.mod_pos_bound. exact HM.
  - destruct (Z.le_gt_cases (_pos b) (_limit b)) as [Hle|Hgt].
    + rewrite Z.mod_small by lia. lia.
    + rewrite <- (Z.mod_unique (_limit b - _pos b) (2 ^ 64) (-1)
                    (_limit b - _pos b + 2 ^ 64)) by lia.
      lia.
  - intros Hlt. apply Z.ltb_lt in Hlt. rewrite Z.mod_small by lia. lia.
Qed.

(** X10: from a state with [0 <= pos <= limit], draining takes exactly
    [remaining] calls of [pos_inc]: [has_remaining] is true after every
    smaller number of calls and false after [remaining] of them, when [pos]
    has reached [limit] and nothing remains. *)
Theorem drain_takes_remaining_steps (b : RowBlock) :
  0 <= pos b <= limit b ->
  is_size_t (limit b) ->
  (forall k : nat,
     Z.of_nat k < remaining b -> has_remaining (pos_inc_times k b) = true)
  /\ has_remaining (pos_inc_times (Z.to_nat (remaining b)) b) = false
  /\ pos (pos_inc_times (Z.to_nat (remaining b)) b) = limit b
  /\ remaining (pos_inc_times (Z.to_nat (remaining b)) b) = 0.
Proof.
  intros Hpl Hlim.
  assert (Hrem : remaining b = limit b - pos b).
  { unfold remaining. apply wrap_size_t_small.
    unfold is_size_t, pos, limit in *. lia. }
  unfold is_size_t in Hlim. split.
  - intros k Hk.
    destruct (pos_inc_times_state k b) as (Hpos & Hlimit & _); [lia|lia|].
    unfold has_remaining. unfold pos, limit in *.
    rewrite Hpos, Hlimit. apply Z.ltb_lt. lia.
  - destruct (pos_inc_times_state (Z.to_nat (remaining b)) b)
      as (Hpos & Hlimit & _); [lia|lia|].
    unfold has_remaining, remaining in *. unfold pos, limit in *.
    rewrite Hpos, Hlimit.
    split; [apply Z.ltb_ge; lia|]. split; [lia|].
    replace (_limit b - _) with 0 by lia. reflexivity.
Qed.

(** X11: [n] calls of [pos_inc] amount to one [set_pos] to
    [(pos + n) mod 2^64]; nothing else of the block changes, and [pos]
    wraps around at the end of the [size_t] range. *)
Theorem pos_inc_times_is_set_pos (n : nat) (b : RowBlock) :
  is_size_t (pos b) ->
  pos_inc_times n b = set_pos b (wrap_size_t (pos b + Z.of_nat n)).
Proof.
  revert b. induction n as [|n IH]; intros b Hp.
  - simpl. rewrite Z.add_0_r, wrap_size_t_small by exact Hp.
    destruct b. reflexivity.
  - simpl pos_inc_times. rewrite IH.
    + unfold set_pos, pos_inc, pos, with_pos, wrap_size_t. simpl.
      f_equal. rewrite Z.add_mod_idemp_l by (unfold SIZE_MODULUS; lia).
      f_equal. lia.
    + unfold pos, pos_inc, wrap_size_t, is_size_t. simpl.
      apply Z.mod_pos_bound. unfold SIZE_MODULUS. lia.
Qed.

(** ** The comparator on a sorted block *)

Section ComparatorProofs.

Variable cmp : list byte -> list byte -> Z.
Context {cmp_total : ThreeWay cmp}.

Lemma comparator_larger_row (b : RowBlock) (h : RowCursor) (i : Z)
  (key : list byte) :
  wf_block b -> 0 <= i < row_num b ->
  comparator_larger cmp b h key i = Some (cmp (row_bytes b i) key >? 0).
Proof.
  intros Hwf Hi. unfold comparator_larger, _compare.
  rewrite cursor_row_get_row; [reflexivity|exact Hwf|].
  pose proof (wf_row_num b Hwf). lia.
Qed.

(** X12: on a well-formed block whose rows are sorted, both call operators
    of [RowBlockComparator] split the index range the way a binary search
    needs: if row [j] is less than the key so is every earlier row, if the
    key is less than row [i] it is less than every later row, and no row is
    both less and larger than the key. *)
Theorem comparator_partitions_sorted_block (b : RowBlock) (h : RowCursor)
  (key : list byte) (i j : Z) :
  wf_block b ->
  sorted_rows cmp (rows b) = true ->
  0 <= i -> i <= j -> j < row_num b ->
  (comparator_less cmp b h j key = Some true ->
   comparator_less cmp b h i key = Some true)
  /\ (comparator_larger cmp b h key i = Some true ->
      comparator_larger cmp b h key j = Some true)
  /\ ~ (comparator_less cmp b h i key = Some true
        /\ comparator_larger cmp b h key i = Some true).
Proof.
  intros Hwf Hs Hi Hij Hj.
  pose proof (sorted_block_pairwise cmp b i j Hs Hi Hij Hj) as Hle.
  rewrite !(comparator_less_value cmp b h) by (try exact Hwf; lia).
  rewrite !(comparator_larger_row b h) by (try exact Hwf; lia).
  split; [|split].
  - intros [= Hlt]. apply Z.ltb_lt in Hlt. f_equal. apply Z.ltb_lt.
    exact (cmp_le_lt_trans cmp _ _ _ Hle Hlt).
  - intros [= Hgt]. apply Z.gtb_lt in Hgt. f_equal. apply Z.gtb_lt.
    exact (cmp_le_gt_trans cmp _ _ _ Hle Hgt).
  - intros [[= Hlt] [= Hgt]].
    apply Z.ltb_lt in Hlt. apply Z.gtb_lt in Hgt. lia.
Qed.

End ComparatorProofs.

(** * AggregateType *)

Section AggregateTypeProofs.

Context `{PrimitiveTypeEnum}.

(** What the static initializer leaves under each key. *)

Lemma compatibilityMap_get_SUM :
  AggregateType.compatibilityMap_get AggregateType.SUM
  = Some [TINYINT; SMALLINT; INT; BIGINT; LARGEINT; FLOAT; DOUBLE;
          DECIMAL; DECIMALV2].
Proof. reflexivity. Qed.

Lemma compatibilityMap_get_MIN :
  AggregateType.compatibilityMap_get AggregateType.MIN
  = Some [TINYINT; SMALLINT; INT; BIGINT; LARGEINT; FLOAT; DOUBLE;
          DECIMAL; DECIMALV2; DATE; DATETIME; CHAR; VARCHAR].
Proof. reflexivity. Qed.

Lemma compatibilityMap_get_MAX :
  AggregateType.compatibilityMap_get AggregateType.MAX
  = Some [TINYINT; SMALLINT; INT; BIGINT; LARGEINT; FLOAT; DOUBLE;
          DECIMAL; DECIMALV2; DATE; DATETIME; CHAR; VARCHAR].
Proof. reflexivity. Qed.

Lemma compatibilityMap_get_REPLACE :
  AggregateType.compatibilityMap_get AggregateType.REPLACE
  = Some PrimitiveType_values.
Proof. reflexivity. Qed.

Lemma compatibilityMap_get_NONE :
  AggregateType.compatibilityMap_get AggregateType.NONE
  = Some PrimitiveType_values.
Proof. reflexivity. Qed.

Lemma compatibilityMap_get_HLL_UNION :
  AggregateType.compatibilityMap_get AggregateType.HLL_UNION = Some [HLL].
Proof. reflexivity. Qed.

Lemma compatibilityMap_get_BITMAP_UNION :
  AggregateType.compatibilityMap_get AggregateType.BITMAP_UNION
  = Some [VARCHAR].
Proof. reflexivity. Qed.

Lemma contains_true (s : AggregateType.EnumSet) (x : PrimitiveType) :
  Some (AggregateType.contains s x) = Some true <-> x ∈ s.
Proof.
  unfold AggregateType.contains. split.
  - intros [= Hb]. apply bool_decide_eq_true in Hb. exact Hb.
  - intros Hin. f_equal. apply bool_decide_eq_true. exact Hin.
Qed.

(** X13: the static initializer runs to its end (no [EnumSet.copyOf] is
    handed an empty list), it leaves an entry under every aggregate type,
    and so [checkCompatibility] returns a boolean for every aggregate type
    and every primitive type: it never dereferences [null]. *)
Theorem checkCompatibility_never_throws :
  is_Some AggregateType.loaded
  /\ (forall aggType, is_Some (AggregateType.compatibilityMap_get aggType))
  /\ (forall aggType priType,
        is_Some (AggregateType.checkCompatibility aggType priType)).
Proof.
  split; [apply is_Some_alt; vm_compute; exact I|]. split.
  - intros [];
      rewrite ?compatibilityMap_get_SUM, ?compatibilityMap_get_MIN,
        ?compatibilityMap_get_MAX, ?compatibilityMap_get_REPLACE,
        ?compatibilityMap_get_HLL_UNION, ?compatibilityMap_get_NONE,
        ?compatibilityMap_get_BITMAP_UNION;
      eexists; reflexivity.
  - intros [] priType; unfold AggregateType.checkCompatibility;
      rewrite ?compatibilityMap_get_SUM, ?compatibilityMap_get_MIN,
        ?compatibilityMap_get_MAX, ?compatibilityMap_get_REPLACE,
        ?compatibilityMap_get_HLL_UNION, ?compatibilityMap_get_NONE,
        ?compatibilityMap_get_BITMAP_UNION;
      simpl; eexists; reflexivity.
Qed.

(** X14: SUM accepts exactly the nine numeric types; MIN accepts exactly
    those and DATE, DATETIME, CHAR and VARCHAR; MAX answers as MIN does on
    every type; so every type that can be summed can also be minimized and
    maximized. *)
Theorem sum_min_max_compatibility (priType : PrimitiveType) :
  (AggregateType.checkCompatibility AggregateType.SUM priType = Some true
   <-> priType ∈ [TINYINT; SMALLINT; INT; BIGINT; LARGEINT; FLOAT; DOUBLE;
                  DECIMAL; DECIMALV2])
  /\ (AggregateType.checkCompatibility AggregateType.MIN priType = Some true
      <-> priType ∈ [TINYINT; SMALLINT; INT; BIGINT; LARGEINT; FLOAT; DOUBLE;
                     DECIMAL; DECIMALV2; DATE; DATETIME; CHAR; VARCHAR])
  /\ AggregateType.checkCompatibility AggregateType.MAX priType
     = AggregateType.checkCompatibility AggregateType.MIN priType
  /\ (AggregateType.checkCompatibility AggregateType.SUM priType = Some true
      -> AggregateType.checkCompatibility AggregateType.MIN priType
         = Some true
         /\ AggregateType.checkCompatibility AggregateType.MAX priType
            = Some true).
Proof.
  unfold AggregateType.checkCompatibility.
  rewrite compatibilityMap_get_SUM, compatibilityMap_get_MIN,
    compatibilityMap_get_MAX.
  simpl. rewrite !contains_true.
  split; [reflexivity|]. split; [reflexivity|]. split; [reflexivity|].
  intros Hsum. assert (Hmin : priType ∈
    [TINYINT; SMALLINT; INT; BIGINT; LARGEINT; FLOAT; DOUBLE;
     DECIMAL; DECIMALV2] ++ [DATE; DATETIME; CHAR; VARCHAR])
    by (apply elem_of_app; left; exact Hsum).
  split; exact Hmin.
Qed.

(** X15: when [PrimitiveType.values()] lists every primitive type, as it
    does for a Java enum, REPLACE and NONE accept every primitive type. *)
Theorem replace_and_none_accept_everything (priType : PrimitiveType) :
  (forall x : PrimitiveType, x ∈ PrimitiveType_values) ->
  AggregateType.checkCompatibility AggregateType.REPLACE priType = Some true
  /\ AggregateType.checkCompatibility AggregateType.NONE priType = Some true.
Proof.
  intros Hall. unfold AggregateType.checkCompatibility.
  rewrite compatibilityMap_get_REPLACE, compatibilityMap_get_NONE.
  simpl. rewrite contains_true. split; apply Hall.
Qed.

(** X16: HLL_UNION accepts HLL and nothing else; BITMAP_UNION accepts
    VARCHAR and nothing else. *)
Theorem union_aggregates_accept_one_type (priType : PrimitiveType) :
  (AggregateType.checkCompatibility AggregateType.HLL_UNION priType
   = Some true <-> priType = HLL)
  /\ (AggregateType.checkCompatibility AggregateType.BITMAP_UNION priType
      = Some true <-> priType = VARCHAR).
Proof.
  unfold AggregateType.checkCompatibility.
  rewrite compatibilityMap_get_HLL_UNION, compatibilityMap_get_BITMAP_UNION.
  simpl. rewrite !contains_true, !list_elem_of_singleton.
  split; reflexivity.
Qed.

End AggregateTypeProofs.

(** X17: [toThrift] never takes its default branch: it returns a Thrift
    constant, not [null], for every aggregate type, and different aggregate
    types get different constants. *)
Theorem toThrift_total_and_injective :
  (forall a, is_Some (AggregateType.toThrift a))
  /\ (forall a b,
        AggregateType.toThrift a = AggregateType.toThrift b -> a = b).
Proof.
  split.
  - intros []; eexists; reflexivity.
  - intros [] []; simpl; intros Heq; first [reflexivity | discriminate Heq].
Qed.

(** X18: no two aggregate types share an SQL name: [toSql], and [toString]
    which returns the same string, are injective. *)
Theorem toSql_injective (a b : AggregateType.t) :
  AggregateType.toString a = AggregateType.toSql a
  /\ (AggregateType.toSql a = AggregateType.toSql b -> a = b)
  /\ (AggregateType.toString a = AggregateType.toString b -> a = b).
Proof.
  split; [reflexivity|].
  split; destruct a, b; simpl; intros Heq;
    first [reflexivity | discriminate Heq].
Qed.

Lemma replace_and_none_accept_everything_witness :
  @AggregateType.checkCompatibility sample_primitive_types
     AggregateType.REPLACE pt_BOOLEAN = Some true
  /\ @AggregateType.checkCompatibility sample_primitive_types
       AggregateType.NONE pt_BOOLEAN = Some true.
Proof.
  apply (@replace_and_none_accept_everything sample_primitive_types
           pt_BOOLEAN).
  intros []; simpl; repeat constructor.
Defined.

(** * Further instances at the concrete block *)

Lemma set_row_last_write_wins_witness :
  is_Some (set_row scenario_block 1 (scenario_row x05))
  /\ (b1 ← set_row scenario_block 1 (scenario_row x63);
      set_row b1 1 (scenario_row x05))
     = set_row scenario_block 1 (scenario_row x05).
Proof.
  apply (set_row_last_write_wins scenario_block 1
           (scenario_row x63) (scenario_row x05)).
  - constructor; by_evaluation.
  - by_evaluation.
  - by_evaluation.
  - by_evaluation.
Defined.

Lemma set_row_distinct_slots_commute_witness :
  (b1 ← set_row scenario_block 0 (scenario_row x05);
   set_row b1 3 (scenario_row x63))
  = (b1 ← set_row scenario_block 3 (scenario_row x63);
     set_row b1 0 (scenario_row x05)).
Proof.
  apply (set_row_distinct_slots_commute scenario_block 0 3).
  - constructor; by_evaluation.
  - by_evaluation.
  - by_evaluation.
  - discriminate.
  - by_evaluation.
  - by_evaluation.
Defined.

Lemma set_row_of_read_row_is_identity_witness :
  set_row scenario_block 2 (scenario_row x14) = Some scenario_block.
Proof.
  apply (set_row_of_read_row_is_identity scenario_block 2
           {| _fixed_buf := 0 |}).
  - constructor; by_evaluation.
  - by_evaluation.
  - vm_compute. reflexivity.
Defined.

Lemma refill_read_back_witness :
  exists b1,
    refill scenario_empty scenario_writes = Some b1
    /\ (forall i src cursor,
          (i, src) ∈ scenario_writes ->
          cursor_row b1 (get_row b1 i cursor)
          = Some (take (Z.to_nat (_mem_row_bytes scenario_empty)) src))
    /\ (forall j cursor,
          0 <= j < _capacity scenario_empty -> j ∉ scenario_writes.*1 ->
          cursor_row b1 (get_row b1 j cursor)
          = cursor_row scenario_empty (get_row scenario_empty j cursor)).
Proof.
  apply (refill_read_back scenario_empty scenario_writes).
  - constructor; by_evaluation.
  - repeat (constructor; [by_evaluation|]). constructor.
  - apply (bool_decide_unpack _). vm_compute. exact I.
Defined.

Lemma refill_order_independent_witness :
  is_Some (refill scenario_empty scenario_writes)
  /\ refill scenario_empty scenario_writes
     = refill scenario_empty (reverse scenario_writes).
Proof.
  apply (refill_order_independent scenario_empty scenario_writes
           (reverse scenario_writes)).
  - constructor; by_evaluation.
  - repeat (constructor; [by_evaluation|]). constructor.
  - apply (bool_decide_unpack _). vm_compute. exact I.
  - symmetry. apply reverse_Permutation.
Defined.

Lemma rows_inside_buffer_and_disjoint_witness :
  _mem_buf scenario_block
  <= _fixed_buf (get_row scenario_block 1 {| _fixed_buf := 0 |})
  /\ _fixed_buf (get_row scenario_block 1 {| _fixed_buf := 0 |})
     + _mem_row_bytes scenario_block
     <= _fixed_buf (get_row scenario_block 3 {| _fixed_buf := 0 |})
  /\ _fixed_buf (get_row scenario_block 3 {| _fixed_buf := 0 |})
     + _mem_row_bytes scenario_block
     <= _mem_buf scenario_block + _mem_buf_bytes scenario_block.
Proof.
  apply (rows_inside_buffer_and_disjoint scenario_block 1 3).
  - constructor; by_evaluation.
  - by_evaluation.
  - by_evaluation.
  - by_evaluation.
Defined.

Lemma field_ptr_agrees_with_get_row_witness :
  field_ptr scenario_block 2 1
  = Some (_fixed_buf (get_row scenario_block 2 {| _fixed_buf := 0 |}) + 5)
  /\ (2 + 1 < _capacity scenario_block ->
      field_ptr scenario_block (2 + 1) 1
      = Some (_fixed_buf (get_row scenario_block 2 {| _fixed_buf := 0 |})
              + 5 + _mem_row_bytes scenario_block)).
Proof.
  apply (field_ptr_agrees_with_get_row scenario_block 2 1 5).
  - constructor; by_evaluation.
  - by_evaluation.
  - reflexivity.
Defined.

Lemma row_access_is_not_bounds_checked_witness :
  _mem_buf scenario_block + _mem_buf_bytes scenario_block
  <= _fixed_buf (get_row scenario_block 4 {| _fixed_buf := 0 |})
  /\ cursor_row scenario_block
       (get_row scenario_block 4 {| _fixed_buf := 0 |}) = None
  /\ set_row scenario_block 4 (scenario_row x63) = None.
Proof.
  apply (row_access_is_not_bounds_checked scenario_block 4).
  - constructor; by_evaluation.
  - by_evaluation.
  - by_evaluation.
  - by_evaluation.
Defined.

Lemma pos_plus_remaining_is_limit_witness :
  wrap_size_t
    (pos (pos_inc_times 4 (set_limit scenario_block 2))
     + remaining (pos_inc_times 4 (set_limit scenario_block 2)))
  = limit (pos_inc_times 4 (set_limit scenario_block 2))
  /\ is_size_t (remaining (pos_inc_times 4 (set_limit scenario_block 2)))
  /\ (remaining (pos_inc_times 4 (set_limit scenario_block 2)) = 0
      <-> pos (pos_inc_times 4 (set_limit scenario_block 2))
          = limit (pos_inc_times 4 (set_limit scenario_block 2)))
  /\ (has_remaining (pos_inc_times 4 (set_limit scenario_block 2)) = true ->
      remaining (pos_inc_times 4 (set_limit scenario_block 2))
      = limit (pos_inc_times 4 (set_limit scenario_block 2))
        - pos (pos_inc_times 4 (set_limit scenario_block 2))
      /\ 0 < remaining (pos_inc_times 4 (set_limit scenario_block 2))).
Proof.
  apply (pos_plus_remaining_is_limit
           (pos_inc_times 4 (set_limit scenario_block 2))).
  - by_evaluation.
  - by_evaluation.
Defined.

Lemma drain_takes_remaining_steps_witness :
  (forall k : nat,
     Z.of_nat k < remaining (set_limit scenario_block 2) ->
     has_remaining (pos_inc_times k (set_limit scenario_block 2)) = true)
  /\ has_remaining
       (pos_inc_times (Z.to_nat (remaining (set_limit scenario_block 2)))
                      (set_limit scenario_block 2)) = false
  /\ pos (pos_inc_times (Z.to_nat (remaining (set_limit scenario_block 2)))
                        (set_limit scenario_block 2))
     = limit (set_limit scenario_block 2)
  /\ remaining
       (pos_inc_times (Z.to_nat (remaining (set_limit scenario_block 2)))
                      (set_limit scenario_block 2)) = 0.
Proof.
  apply (drain_takes_remaining_steps (set_limit scenario_block 2)).
  - by_evaluation.
  - by_evaluation.
Defined.

Lemma pos_inc_times_is_set_pos_witness :
  pos_inc_times 3 scenario_block
  = set_pos scenario_block (wrap_size_t (pos scenario_block + Z.of_nat 3)).
Proof.
  apply (pos_inc_times_is_set_pos 3 scenario_block). by_evaluation.
Defined.

Lemma comparator_partitions_sorted_block_witness :
  (comparator_less cmp_int_key scenario_block {| _fixed_buf := 0 |} 2
     (scenario_row x1e) = Some true ->
   comparator_less cmp_int_key scenario_block {| _fixed_buf := 0 |} 0
     (scenario_row x1e) = Some true)
  /\ (comparator_larger cmp_int_key scenario_block {| _fixed_buf := 0 |}
        (scenario_row x1e) 0 = Some true ->
      comparator_larger cmp_int_key scenario_block {| _fixed_buf := 0 |}
        (scenario_row x1e) 2 = Some true)
  /\ ~ (comparator_less cmp_int_key scenario_block {| _fixed_buf := 0 |} 0
          (scenario_row x1e) = Some true
        /\ comparator_larger cmp_int_key scenario_block {| _fixed_buf := 0 |}
             (scenario_row x1e) 0 = Some true).
Proof.
  assert (Htotal : ThreeWay cmp_int_key)
    by (constructor; unfold cmp_int_key; intros; lia).
  apply (@comparator_partitions_sorted_block cmp_int_key Htotal
           scenario_block {| _fixed_buf := 0 |} (scenario_row x1e) 0 2).
  - constructor; by_evaluation.
  - vm_compute. reflexivity.
  - by_evaluation.
  - by_evaluation.
  - by_evaluation.
Defined.
